(** * Quantum signal processing notebook: polynomial, circuit and sampling

    A shallow embedding of the code cells of the quantum-signal-processing
    notebook (samples/quantum-signal-processing/signal-processing.ipynb):
    [expected_w], [expected_s], [qsp_polynomial], [WGate], [SGate],
    [qsp_circuit] and [simulate_polynomial].

    Modelling conventions.
    - Python floats and SymPy numbers are the real numbers [R] of the
      Standard Library; a complex number is a pair (real part, imaginary
      part).  Arithmetic is exact: rounding is not modelled.
    - A Python exception is the [Raise] case of [result].
    - A Qiskit single-qubit circuit is the list of its rotation gates in the
      order in which they were appended; [Operator] is its unitary.
    - The remote backend is a state (next job number and a log of the calls
      made) together with the counts each job answers with. *)

From Stdlib Require Import Reals Lra Lia List.
From stdpp Require Import base strings gmap.
Import ListNotations.

Local Open Scope R_scope.

(** ** Python exceptions *)

Inductive PyError : Type :=
| AssertionError (msg : string)
| IndexError
| ValueError
| ZeroDivisionError.

Inductive result (A : Type) : Type :=
| Ok (a : A)
| Raise (e : PyError).

Arguments Ok {A} a.
Arguments Raise {A} e.

Definition rbind {A B : Type} (r : result A) (k : A -> result B) : result B :=
  match r with
  | Ok a => k a
  | Raise e => Raise e
  end.

(** ** Complex numbers *)

Module Cx.

Definition C : Type := (R * R)%type.

Definition Re (z : C) : R := fst z.
Definition Im (z : C) : R := snd z.

Definition RtoC (r : R) : C := (r, 0).
Definition C0 : C := (0, 0).
Definition C1 : C := (1, 0).
(** Python's [1j]. *)
Definition Ci : C := (0, 1).

Definition Cplus (a b : C) : C := (fst a + fst b, snd a + snd b).
Definition Copp (a : C) : C := (- fst a, - snd a).
Definition Cminus (a b : C) : C := Cplus a (Copp b).
Definition Cmult (a b : C) : C :=
  (fst a * fst b - snd a * snd b, fst a * snd b + snd a * fst b).
Definition Cconj (a : C) : C := (fst a, - snd a).

(** [sp.Abs(z)**2] and [abs(z)]. *)
Definition Cnorm2 (a : C) : R := fst a * fst a + snd a * snd a.
Definition Cmod (a : C) : R := sqrt (Cnorm2 a).

(** [sp.exp(z)]. *)
Definition Cexp (z : C) : C := (exp (fst z) * cos (snd z), exp (fst z) * sin (snd z)).

(** [sp.sqrt(r)] at a real [r]: the principal square root, which is
    imaginary when [r] is negative. *)
Definition sp_sqrt (r : R) : C :=
  if Rle_dec 0 r then (sqrt r, 0) else (0, sqrt (- r)).

End Cx.
Import Cx.

Declare Scope C_scope.
Delimit Scope C_scope with C.
Infix "+" := Cplus : C_scope.
Infix "*" := Cmult : C_scope.
Infix "-" := Cminus : C_scope.
Notation "- z" := (Copp z) : C_scope.

(** ** 2x2 complex matrices *)

Record Matrix : Type := mkMatrix {
  m00 : C; m01 : C;
  m10 : C; m11 : C
}.

Definition Mmult (A B : Matrix) : Matrix :=
  {| m00 := (m00 A * m00 B + m01 A * m10 B)%C;
     m01 := (m00 A * m01 B + m01 A * m11 B)%C;
     m10 := (m10 A * m00 B + m11 A * m10 B)%C;
     m11 := (m10 A * m01 B + m11 A * m11 B)%C |}.

Definition I2 : Matrix := mkMatrix C1 C0 C0 C1.

(** Conjugate transpose. *)
Definition adjoint (A : Matrix) : Matrix :=
  mkMatrix (Cconj (m00 A)) (Cconj (m10 A)) (Cconj (m01 A)) (Cconj (m11 A)).

Definition unitary (A : Matrix) : Prop := Mmult A (adjoint A) = I2.

(** ** The SymPy side: [expected_w], [expected_s], [qsp_polynomial] *)

(** [sp.Matrix([[x, 1j * sp.sqrt(1 - x**2)], [1j * sp.sqrt(1 - x**2), x]])] *)
Definition expected_w (x : R) : Matrix :=
  mkMatrix (RtoC x) (Ci * sp_sqrt (1 - x ^ 2))%C
           (Ci * sp_sqrt (1 - x ^ 2))%C (RtoC x).

(** [sp.diag([sp.exp(1j * phi), sp.exp(-1j * phi)], unpack=True)] *)
Definition expected_s (phi : R) : Matrix :=
  mkMatrix (Cexp (Ci * RtoC phi)%C) C0
           C0 (Cexp ((- Ci) * RtoC phi)%C).

(** [sp.simplify] rewrites an expression without changing its value. *)
Definition simplify (M : Matrix) : Matrix := M.

(** The body of the [for phi in phases[1:]] loop. *)
Definition qsp_step (x : R) (poly : Matrix) (phi : R) : Matrix :=
  Mmult (Mmult poly (expected_w x)) (expected_s phi).

Definition qsp_polynomial (x : R) (phases : list R) : result (Matrix * C * C) :=
  match phases with
  | [] => Raise (AssertionError "phases cannot be empty")
  | phi0 :: rest =>
      let poly := expected_s phi0 in
      let poly := fold_left (qsp_step x) rest poly in
      let poly := simplify poly in
      Ok (poly, m00 poly, m01 poly)
  end.

(** ** The Qiskit side: [WGate], [SGate], [qsp_circuit], [Operator] *)

Inductive Gate : Type :=
| rx (theta : R)
| rz (theta : R).

Definition QuantumCircuit : Type := list Gate.

(** [math.acos] raises [ValueError] outside [-1, 1]. *)
Definition math_acos (x : R) : result R :=
  if Rle_dec (-1) x then
    if Rle_dec x 1 then Ok (acos x) else Raise ValueError
  else Raise ValueError.

(** [WGate(x)]: a one-qubit circuit holding [rx(-2.0 * acos(x))]. *)
Definition WGate (x : R) : result QuantumCircuit :=
  rbind (math_acos x) (fun a => Ok [rx (-2 * a)]).

(** [SGate(phi)]: a one-qubit circuit holding [rz(-2.0 * phi)]. *)
Definition SGate (phi : R) : QuantumCircuit := [rz (-2 * phi)].

(** [circ.append(sub, [0])] on the single qubit. *)
Definition append (circ sub : QuantumCircuit) : QuantumCircuit := circ ++ sub.

(** The [for phi in np_phases[1:]] loop of [qsp_circuit]. *)
Fixpoint qsp_circuit_loop (x : R) (circ : QuantumCircuit) (np_phases : list R)
  : result QuantumCircuit :=
  match np_phases with
  | [] => Ok circ
  | phi :: rest =>
      rbind (WGate x) (fun w =>
        let circ := append circ w in
        let circ := append circ (SGate phi) in
        qsp_circuit_loop x circ rest)
  end.

(** [float(phi)] on a number. *)
Definition float (phi : R) : R := phi.

Definition qsp_circuit (x : R) (phases : list R) : result QuantumCircuit :=
  let np_phases := map float phases in
  let np_phases := rev np_phases in
  let circ : QuantumCircuit := [] in
  match np_phases with
  | [] => Raise IndexError
  | last :: others =>
      let circ := append circ (SGate last) in
      qsp_circuit_loop x circ others
  end.

(** Qiskit's rotation matrices:
    [rx(t) = exp(-i t X / 2)] and [rz(t) = exp(-i t Z / 2)]. *)
Definition gate_matrix (g : Gate) : Matrix :=
  match g with
  | rx t => mkMatrix (RtoC (cos (t / 2))) ((- Ci) * RtoC (sin (t / 2)))%C
                     ((- Ci) * RtoC (sin (t / 2)))%C (RtoC (cos (t / 2)))
  | rz t => mkMatrix (Cexp ((- Ci) * RtoC (t / 2))%C) C0
                     C0 (Cexp (Ci * RtoC (t / 2))%C)
  end.

(** [Operator(circ).data]: a gate appended later multiplies from the left. *)
Definition Operator (circ : QuantumCircuit) : Matrix :=
  fold_left (fun U g => Mmult (gate_matrix g) U) circ I2.

(** Born rule: the probability that measuring the qubit after running the
    circuit on |0> gives 0. *)
Definition prob_zero (circ : QuantumCircuit) : R := Cnorm2 (m00 (Operator circ)).

(** ** The sampling side: backend, jobs, [simulate_polynomial] *)

(** What the backend was asked to do, in the order of the calls. *)
Inductive Event : Type :=
| Submit (job : nat)
| Await (job : nat).

Record World : Type := mkWorld {
  next_job : nat;
  log : list Event
}.

(** [job.result().get_counts()]: outcome bit-string to number of shots. *)
Abbreviation Counts := (gmap string nat).

(** The execution backend is an opaque collaborator: [execute n c shots] is
    the histogram job number [n] answers with for circuit [c]. *)
Record Backend (Circ : Type) : Type := mkBackend {
  execute : nat -> Circ -> nat -> Counts
}.
Arguments execute {Circ} b n c shots.

Record Job (Circ : Type) : Type := mkJob {
  job_id : nat;
  job_circuit : Circ;
  job_shots : nat
}.
Arguments mkJob {Circ} job_id job_circuit job_shots.
Arguments job_id {Circ} j.
Arguments job_circuit {Circ} j.
Arguments job_shots {Circ} j.

(** Computations that talk to the backend and may raise. *)
Definition M (A : Type) : Type := World -> result A * World.

Definition ret {A : Type} (a : A) : M A := fun w => (Ok a, w).

Definition bind {A B : Type} (m : M A) (k : A -> M B) : M B :=
  fun w =>
    match m w with
    | (Ok a, w') => k a w'
    | (Raise e, w') => (Raise e, w')
    end.

Definition lift {A : Type} (r : result A) : M A := fun w => (r, w).

Notation "'let*' x := m 'in' k" := (bind m (fun x => k))
  (at level 10, x name, m at level 100, k at level 200).

(** [backend.run(circuit, shots=num_shots)] *)
Definition backend_run {Circ : Type} (circuit : Circ) (num_shots : nat)
  : M (Job Circ) :=
  fun w =>
    let n := next_job w in
    (Ok (mkJob n circuit num_shots),
     mkWorld (S n) (log w ++ [Submit n])).

(** [job.result().get_counts()] *)
Definition job_result {Circ : Type} (backend : Backend Circ) (job : Job Circ)
  : M Counts :=
  fun w =>
    (Ok (execute backend (job_id job) (job_circuit job) (job_shots job)),
     mkWorld (next_job w) (log w ++ [Await (job_id job)])).

(** [counts.get(key, d)] *)
Definition counts_get (counts : Counts) (key : string) (d : nat) : nat :=
  default d (counts !! key).

(** [counts.shots()]: the sum of the values. *)
Definition counts_shots (counts : Counts) : nat :=
  map_fold (fun _ v acc => (v + acc)%nat) 0%nat counts.

(** [a / b] on two ints. *)
Definition truediv (a b : nat) : result R :=
  match b with
  | O => Raise ZeroDivisionError
  | S _ => Ok (INR a / INR b)
  end.

(** [counts.get('0', 0) / counts.shots()] *)
Definition probability_of (counts : Counts) : result R :=
  truediv (counts_get counts "0" 0%nat) (counts_shots counts).

(** The body of [for job in jobs]: the probability estimated from one job. *)
Definition job_probability {Circ : Type} (backend : Backend Circ) (job : Job Circ)
  : M R :=
  let* counts := job_result backend job in
  lift (probability_of counts).

(** [[backend.run(circuit_function(x), shots=num_shots) for x in xs]] *)
Fixpoint submit_jobs {X Circ : Type} (circuit_function : X -> result Circ)
    (xs : list X) (num_shots : nat) : M (list (Job Circ)) :=
  match xs with
  | [] => ret []
  | x :: xs' =>
      let* circuit := lift (circuit_function x) in
      let* job := backend_run circuit num_shots in
      let* jobs := submit_jobs circuit_function xs' num_shots in
      ret (job :: jobs)
  end.

(** The [for job in jobs] loop, appending to [ys_simulated]. *)
Fixpoint collect_jobs {Circ : Type} (backend : Backend Circ)
    (jobs : list (Job Circ)) (ys_simulated : list R) : M (list R) :=
  match jobs with
  | [] => ret ys_simulated
  | job :: jobs' =>
      let* probability := job_probability backend job in
      collect_jobs backend jobs' (ys_simulated ++ [probability])
  end.

Definition simulate_polynomial {X Circ : Type} (backend : Backend Circ)
    (circuit_function : X -> result Circ) (xs : list X) (num_shots : nat)
  : M (list R) :=
  let ys_simulated := [] in
  let* jobs := submit_jobs circuit_function xs num_shots in
  collect_jobs backend jobs ys_simulated.

(** A circuit with its final measurement. *)
Record Experiment : Type := mkExperiment {
  gates : QuantumCircuit;
  measured : bool
}.

(** [circ.measure_all()] *)
Definition measure_all (circ : QuantumCircuit) : Experiment :=
  mkExperiment circ true.

(** [transpile(circ, backend)] keeps the circuit's meaning. *)
Definition transpile (e : Experiment) : Experiment := e.

(** [experiment_circuit(x)] of section 2, for the notebook's [phases]. *)
Definition experiment_circuit (phases : list R) (x : R) : result Experiment :=
  rbind (qsp_circuit x phases) (fun circ =>
    let circ := measure_all circ in
    Ok (transpile circ)).

(** The fraction of the shots of a histogram that read 0. *)
Definition fraction_zero (counts : Counts) : R :=
  INR (counts_get counts "0" 0%nat) / INR (counts_shots counts).

(** The jobs handed out for [circuits], numbered from [start]. *)
Fixpoint jobs_from {Circ : Type} (start : nat) (circuits : list Circ)
    (num_shots : nat) : list (Job Circ) :=
  match circuits with
  | [] => []
  | c :: cs => mkJob start c num_shots :: jobs_from (S start) cs num_shots
  end.

(** The backend answers every job with as many outcomes as shots were
    asked for. *)
Definition honours_shots {Circ : Type} (backend : Backend Circ) : Prop :=
  forall n c num_shots, counts_shots (execute backend n c num_shots) = num_shots.

(** The backend samples the measurement faithfully: the frequency of the
    outcome 0 tends to its Born probability as the number of shots grows. *)
Definition samples_born_rule (backend : Backend Experiment) : Prop :=
  forall n e,
    Un_cv (fun k => fraction_zero (execute backend n e (S k)))
          (prob_zero (gates e)).

(** A backend on which every shot reads 0. *)
Definition all_zero_backend {Circ : Type} : Backend Circ :=
  mkBackend Circ (fun _ _ num_shots => {[ "0" := num_shots ]}).

(** The integer part of a real number that is not negative. *)
Definition floor_nat (r : R) : nat := Z.to_nat (Int_part r).

(** An ideal simulator: of [num_shots] shots, the share that reads 0 is the
    Born probability of the circuit, rounded down to a whole number of
    shots. *)
Definition born_backend : Backend Experiment :=
  mkBackend Experiment (fun _ e num_shots =>
    let zeros := floor_nat (INR num_shots * prob_zero (gates e)) in
    <[ "0" := zeros ]> {[ "1" := (num_shots - zeros)%nat ]}).

(** [c A] for a scalar [c]. *)
Definition Mscale (c : C) (A : Matrix) : Matrix :=
  mkMatrix (c * m00 A)%C (c * m01 A)%C (c * m10 A)%C (c * m11 A)%C.

(** [phi_0 + ... + phi_d]. *)
Definition sum_phases (phases : list R) : R := fold_right Rplus 0 phases.

(** ** The specification's words *)

Module Spec.

(** [e^{i t}], by Euler's formula. *)
Definition cis (t : R) : C := (cos t, sin t).

(** [W(x)] with entries (x, i sqrt(1 - x^2); i sqrt(1 - x^2), x). *)
Definition W (x : R) : Matrix :=
  mkMatrix (RtoC x) (0, sqrt (1 - x * x))
           (0, sqrt (1 - x * x)) (RtoC x).

(** [S(phi) = diag(e^{i phi}, e^{-i phi})]. *)
Definition S (phi : R) : Matrix :=
  mkMatrix (cis phi) C0 C0 (cis (- phi)).

(** The product of [W(x) S(phi_i)] over the phases after the first, the
    factor of the smallest index leftmost. *)
Fixpoint prodWS (x : R) (phis : list R) : Matrix :=
  match phis with
  | [] => I2
  | phi :: phis' => Mmult (Mmult (W x) (S phi)) (prodWS x phis')
  end.

(** [S(phi_0) prod_{i=1..d} W(x) S(phi_i)]. *)
Definition buildUnitary (phases : list R) (x : R) : Matrix :=
  match phases with
  | [] => I2
  | phi0 :: phis => Mmult (S phi0) (prodWS x phis)
  end.

(** The gates of the equivalent circuit in the order in which they act:
    the rightmost factor [S(phi_d)] first, then [W], [S(phi_{d-1})], ...,
    [W], [S(phi_0)], with [W] as [rx(-2 acos x)] and [S(phi)] as
    [rz(-2 phi)]. *)
Definition gates_of (x : R) (reversed : list R) : QuantumCircuit :=
  match reversed with
  | [] => []
  | last :: others =>
      rz (-2 * last)
        :: flat_map (fun phi => [rx (-2 * acos x); rz (-2 * phi)]) others
  end.

Definition buildCircuit (phases : list R) (x : R) : QuantumCircuit :=
  gates_of x (rev phases).

(** Two matrices agree within [eps] in every entry. *)
Definition close (eps : R) (A B : Matrix) : Prop :=
  Cmod (m00 A - m00 B)%C < eps /\ Cmod (m01 A - m01 B)%C < eps /\
  Cmod (m10 A - m10 B)%C < eps /\ Cmod (m11 A - m11 B)%C < eps.

End Spec.

(** ** Polynomials in [x] with complex coefficients *)

Module Poly.

(** Coefficients, the constant one first. *)
Definition poly : Type := list C.

Fixpoint eval (p : poly) (x : R) : C :=
  match p with
  | [] => C0
  | c :: p' => (c + RtoC x * eval p' x)%C
  end.

Fixpoint add (p q : poly) : poly :=
  match p, q with
  | [], _ => q
  | _, [] => p
  | a :: p', b :: q' => (a + b)%C :: add p' q'
  end.

Definition scale (c : C) (p : poly) : poly := map (Cmult c) p.

(** Multiplication by [x]. *)
Definition mulX (p : poly) : poly := C0 :: p.

Definition conj (p : poly) : poly := map Cconj p.

(** One factor [W(x) S(phi)] acting on the pair (P, Q) of
    (P, i Q s; i conj(Q) s, conj(P)), where [s * s = 1 - x^2]:
    [P' = e^{i phi} (x P - (1 - x^2) Q)] and [Q' = e^{-i phi} (P + x Q)]. *)
Definition step (PQ : poly * poly) (phi : R) : poly * poly :=
  let (P, Q) := PQ in
  (scale (Spec.cis phi)
     (add (mulX P) (add (scale (- C1)%C Q) (mulX (mulX Q)))),
   scale (Spec.cis (- phi)) (add P (mulX Q))).

(** The polynomials P and Q of a phase sequence. *)
Definition qsp_PQ (phi0 : R) (rest : list R) : poly * poly :=
  fold_left step rest ([Spec.cis phi0], []).

End Poly.

(** The shape (P, i Q s; i conj(Q) s, conj(P)) of the QSP unitary. *)
Definition qsp_form (P Q Pc Qc s : C) : Matrix :=
  mkMatrix P (Ci * Q * s)%C (Ci * Qc * s)%C Pc.

(** [U] has that shape at [x] for the polynomials [PQ], with
    [s = sp.sqrt(1 - x**2)]. *)
Definition has_form (x : R) (U : Matrix) (PQ : Poly.poly * Poly.poly) : Prop :=
  U = qsp_form (Poly.eval (fst PQ) x) (Poly.eval (snd PQ) x)
               (Cconj (Poly.eval (fst PQ) x)) (Cconj (Poly.eval (snd PQ) x))
               (sp_sqrt (1 - x ^ 2)).

(** ** The notebook's self-tests, sweep points and formula curves *)

(** [np.allclose(a, b)] with NumPy's default [rtol = 1e-05] and
    [atol = 1e-08]: [|a - b| <= atol + rtol * |b|] in every entry. *)
Definition isclose (a b : C) : bool :=
  if Rle_dec (Cmod (a - b)%C) (1 / 10 ^ 8 + 1 / 10 ^ 5 * Cmod b)
  then true else false.

Definition allclose (A B : Matrix) : bool :=
  isclose (m00 A) (m00 B) && isclose (m01 A) (m01 B)
  && isclose (m10 A) (m10 B) && isclose (m11 A) (m11 B).

(** [assert cond] *)
Definition py_assert (cond : bool) : result unit :=
  if cond then Ok tt else Raise (AssertionError EmptyString).

(** [np.array(M.evalf()).astype(complex)] keeps the value of the matrix. *)
Definition evalf (M : Matrix) : Matrix := M.

(** The cell "Check for 100 random numbers".  Each pass of the loop draws
    two numbers with [random.rand()]; [draws] lists them pass by pass. *)
Fixpoint gate_self_test (draws : list (R * R)) : result unit :=
  match draws with
  | [] => Ok tt
  | (r1, r2) :: draws' =>
      let x := r1 * 2 - 1 in
      rbind (WGate x) (fun w =>
      let circ := append [] w in
      let actual := Operator circ in
      let expected := evalf (expected_w x) in
      rbind (py_assert (allclose actual expected)) (fun _ =>
      let phi := r2 * PI in
      let circ := append [] (SGate phi) in
      let actual := Operator circ in
      let expected := evalf (expected_s phi) in
      rbind (py_assert (allclose actual expected)) (fun _ =>
      gate_self_test draws')))
  end.

(** The cell "Test QSP polynomial": [U] is the matrix computed before the
    loop for the symbol [x], read here as a function of the value put in
    its place by [U.evalf(subs={'x': x})]. *)
Fixpoint qsp_self_test (U : R -> Matrix) (phases : list R) (draws : list R)
  : result unit :=
  match draws with
  | [] => Ok tt
  | r :: draws' =>
      let x := r * 2 - 1 in
      rbind (qsp_circuit x phases) (fun circ =>
      let actual := Operator circ in
      let expected := evalf (U x) in
      rbind (py_assert (allclose actual expected)) (fun _ =>
      qsp_self_test U phases draws'))
  end.

(** [np.linspace(start, stop, num)] *)
Definition linspace (start stop : R) (num : nat) : list R :=
  map (fun i => start + INR i * ((stop - start) / INR (num - 1))) (seq 0 num).

(** The slice [l[1:-1]]. *)
Definition slice_1_m1 {A : Type} (l : list A) : list A :=
  take (length l - 1 - 1) (drop 1 l).

(** [xs = np.linspace(-1, 1, discretization_points)[1:-1]] *)
Definition sweep_points (discretization_points : nat) : list R :=
  slice_1_m1 (linspace (-1) 1 discretization_points).

(** [poly_abs = sp.Abs(poly)**2] evaluated at [x], for the [poly] that
    [qsp_polynomial] returns. *)
Definition poly_abs (phases : list R) (x : R) : result R :=
  rbind (qsp_polynomial x phases) (fun '(_, poly, _) => Ok (Cnorm2 poly)).

(** Determinant of a 2x2 matrix. *)
Definition Mdet (A : Matrix) : C := (m00 A * m11 A - m01 A * m10 A)%C.

(** [Z A Z] for [Z = diag(1, -1)]: the off-diagonal entries change sign. *)
Definition flip_offdiag (A : Matrix) : Matrix :=
  mkMatrix (m00 A) (- m01 A)%C (- m10 A)%C (m11 A).

Definition is_rx (g : Gate) : bool :=
  match g with rx _ => true | rz _ => false end.

Definition is_rz (g : Gate) : bool :=
  match g with rx _ => false | rz _ => true end.

(** ** Section 3 of the notebook: the |+>, |-> basis *)

Module PlusBasis.

(** [a / b] on complex numbers. *)
Definition Cinv (b : C) : C :=
  (fst b / (fst b * fst b + snd b * snd b),
   - snd b / (fst b * fst b + snd b * snd b)).

Definition Cdiv (a b : C) : C := (a * Cinv b)%C.

(** [sp.re(z)], as a complex number. *)
Definition sp_re (z : C) : C := RtoC (Re z).

(** [sp.re(poly) + 1j * sp.re(qpoly / 1j)] where both real parts are real
    parts of numbers. *)
Definition sum_poly_value (poly qpoly : C) : C :=
  (sp_re poly + Ci * sp_re (Cdiv qpoly Ci))%C.

(** [sum_poly = sp.re(poly) + 1j * sp.re(qpoly / 1j)], built for the symbol
    [x] and read at a real [x] as [evalf(subs={'x': x})] reads it; [None]
    is SymPy's [nan].  The symbol carries no assumption, so with two or more
    phases, when [qpoly] holds the factor [sp.sqrt(1 - x**2)], SymPy expands
    the real part of that square root through [atan2] of the imaginary and
    real parts of [1 - x**2]: where [1 - x**2 = 0] this is [atan2(0, 0)],
    and the value is [nan].  Everywhere else the real parts are those of the
    numbers. *)
Definition sum_poly (phases : list R) (x : R) : result (option C) :=
  rbind (qsp_polynomial x phases) (fun '(_, poly, qpoly) =>
    match phases with
    | _ :: _ :: _ =>
        if Req_dec_T (1 - x ^ 2) 0 then Ok None
        else Ok (Some (sum_poly_value poly qpoly))
    | _ => Ok (Some (sum_poly_value poly qpoly))
    end).

(** [sum_poly_abs = sp.Abs(sum_poly)**2], read at [x]. *)
Definition sum_poly_abs (phases : list R) (x : R) : result (option R) :=
  rbind (sum_poly phases x) (fun v => Ok (option_map Cnorm2 v)).

(** Circuits that may also hold Hadamard gates. *)
Inductive HGate : Type :=
| rot (g : Gate)
| h.

Definition HCircuit : Type := list HGate.

(** A circuit of rotations, read as a circuit of the larger gate set. *)
Definition of_rotations (circ : QuantumCircuit) : HCircuit := map rot circ.

(** [a.compose(b)]: the gates of [a], then those of [b]. *)
Definition compose (a b : HCircuit) : HCircuit := a ++ b.

(** Qiskit's Hadamard matrix, [1/sqrt(2) (1, 1; 1, -1)]. *)
Definition hgate_matrix (g : HGate) : Matrix :=
  match g with
  | rot g => gate_matrix g
  | h => mkMatrix (RtoC (/ sqrt 2)) (RtoC (/ sqrt 2))
                  (RtoC (/ sqrt 2)) (RtoC (- / sqrt 2))
  end.

(** [Operator(circ).data] on the larger gate set. *)
Definition HOperator (circ : HCircuit) : Matrix :=
  fold_left (fun U g => Mmult (hgate_matrix g) U) circ I2.

Record HExperiment : Type := mkHExperiment {
  hgates : HCircuit;
  hmeasured : bool
}.

Definition measure_all (circ : HCircuit) : HExperiment :=
  mkHExperiment circ true.

Definition transpile (e : HExperiment) : HExperiment := e.

(** [experiment_circuit(x)] of section 3: the QSP circuit between two
    Hadamard gates, measured. *)
Definition experiment_circuit (phases : list R) (x : R) : result HExperiment :=
  rbind (qsp_circuit x phases) (fun circ =>
    let h_circ : HCircuit := [h] in
    let circ := compose (compose h_circ (of_rotations circ)) h_circ in
    let circ := measure_all circ in
    Ok (transpile circ)).

End PlusBasis.

(** * Proofs *)

(** ** Complex arithmetic *)

Lemma C_ring_theory : ring_theory C0 C1 Cplus Cmult Cminus Copp eq.
Proof.
  constructor; intros; unfold Cminus, Cplus, Cmult, Copp, C0, C1;
    repeat match goal with z : C |- _ => destruct z end;
    simpl; try reflexivity; f_equal; ring.
Qed.

Add Ring C_ring : C_ring_theory.

Ltac Csimpl :=
  unfold Cminus, Cplus, Cmult, Copp, Cconj, RtoC, C0, C1, Ci, Cnorm2, Re, Im in *;
  simpl in *.

(** Equality of complex numbers, one component at a time. *)
Ltac Ceq := Csimpl; f_equal; try ring.

Lemma Cexp_i (t : R) : Cexp (Ci * RtoC t)%C = Spec.cis t.
Proof.
  unfold Cexp, Spec.cis. Csimpl.
  replace (0 * t - 1 * 0) with 0 by ring.
  replace (0 * 0 + 1 * t) with t by ring.
  rewrite exp_0. f_equal; ring.
Qed.

Lemma Cexp_minus_i (t : R) : Cexp ((- Ci) * RtoC t)%C = Spec.cis (- t).
Proof.
  unfold Cexp, Spec.cis. Csimpl.
  replace (- 0 * t - - (1) * 0) with 0 by ring.
  replace (- 0 * 0 + - (1) * t) with (- t) by ring.
  rewrite exp_0. f_equal; ring.
Qed.

Lemma cis_conj (t : R) : Cconj (Spec.cis t) = Spec.cis (- t).
Proof. unfold Spec.cis, Cconj. simpl. now rewrite cos_neg, sin_neg. Qed.

Lemma cis_mult_conj (t : R) : (Spec.cis t * Spec.cis (- t))%C = C1.
Proof.
  unfold Spec.cis. rewrite cos_neg, sin_neg. Csimpl.
  pose proof (sin2_cos2 t) as H. unfold Rsqr in H.
  f_equal; [lra | ring].
Qed.

Lemma sp_sqrt_nonneg (r : R) : 0 <= r -> sp_sqrt r = RtoC (sqrt r).
Proof. intros H. unfold sp_sqrt. destruct (Rle_dec 0 r); [reflexivity | contradiction]. Qed.

Lemma sp_sqrt_sq (r : R) : (sp_sqrt r * sp_sqrt r)%C = RtoC r.
Proof.
  unfold sp_sqrt. destruct (Rle_dec 0 r) as [H | H]; Csimpl.
  - rewrite sqrt_sqrt by assumption. f_equal; ring.
  - assert (Hs : sqrt (- r) * sqrt (- r) = - r) by (apply sqrt_sqrt; lra).
    f_equal; [lra | ring].
Qed.

(** ** Matrix arithmetic *)

Lemma Mmult_assoc (A B D : Matrix) : Mmult (Mmult A B) D = Mmult A (Mmult B D).
Proof. unfold Mmult; simpl. f_equal; ring. Qed.

Lemma Mmult_I2_l (A : Matrix) : Mmult I2 A = A.
Proof. destruct A. unfold Mmult, I2; simpl. f_equal; ring. Qed.

Lemma Mmult_I2_r (A : Matrix) : Mmult A I2 = A.
Proof. destruct A. unfold Mmult, I2; simpl. f_equal; ring. Qed.

Lemma expected_s_spec (phi : R) : expected_s phi = Spec.S phi.
Proof. unfold expected_s, Spec.S. now rewrite Cexp_i, Cexp_minus_i. Qed.

Lemma expected_w_spec (x : R) : -1 <= x <= 1 -> expected_w x = Spec.W x.
Proof.
  intros Hx. unfold expected_w, Spec.W.
  assert (H : 0 <= 1 - x ^ 2) by nra.
  rewrite (sp_sqrt_nonneg _ H).
  replace (1 - x ^ 2) with (1 - x * x) by ring.
  f_equal; Ceq.
Qed.

(** ** Conjugation *)

Lemma Cconj_plus (a b : C) : Cconj (a + b)%C = (Cconj a + Cconj b)%C.
Proof. destruct a, b. Ceq. Qed.

Lemma Cconj_mult (a b : C) : Cconj (a * b)%C = (Cconj a * Cconj b)%C.
Proof. destruct a, b. Ceq. Qed.

Lemma Cconj_RtoC (r : R) : Cconj (RtoC r) = RtoC r.
Proof. Ceq. Qed.

Lemma Cconj_C0 : Cconj C0 = C0.
Proof. Ceq. Qed.

Lemma Ci_sq : (Ci * Ci)%C = (- C1)%C.
Proof. Ceq. Qed.

Lemma RtoC_one_minus_sq (x : R) : RtoC (1 - x ^ 2) = (C1 - RtoC x * RtoC x)%C.
Proof. Ceq. Qed.

(** ** Polynomials *)

Lemma eval_add (p q : Poly.poly) (x : R) :
  Poly.eval (Poly.add p q) x = (Poly.eval p x + Poly.eval q x)%C.
Proof.
  revert q. induction p as [| a p IH]; intros q; simpl.
  - ring.
  - destruct q as [| b q]; simpl.
    + ring.
    + rewrite IH. ring.
Qed.

Lemma eval_scale (c : C) (p : Poly.poly) (x : R) :
  Poly.eval (Poly.scale c p) x = (c * Poly.eval p x)%C.
Proof.
  unfold Poly.scale. induction p as [| a p IH]; simpl.
  - ring.
  - rewrite IH. ring.
Qed.

Lemma eval_mulX (p : Poly.poly) (x : R) :
  Poly.eval (Poly.mulX p) x = (RtoC x * Poly.eval p x)%C.
Proof. simpl. ring. Qed.

Lemma eval_conj (p : Poly.poly) (x : R) :
  Poly.eval (Poly.conj p) x = Cconj (Poly.eval p x).
Proof.
  unfold Poly.conj. induction p as [| a p IH]; simpl.
  - now rewrite Cconj_C0.
  - now rewrite IH, Cconj_plus, Cconj_mult, Cconj_RtoC.
Qed.

Lemma length_add (p q : Poly.poly) :
  length (Poly.add p q) = Nat.max (length p) (length q).
Proof.
  revert q. induction p as [| a p IH]; intros [| b q]; simpl; auto.
Qed.

Lemma length_scale (c : C) (p : Poly.poly) : length (Poly.scale c p) = length p.
Proof. apply length_map. Qed.

Lemma eval_step_P (P Q : Poly.poly) (phi x : R) :
  Poly.eval (fst (Poly.step (P, Q) phi)) x
  = (Spec.cis phi
     * (RtoC x * Poly.eval P x
        - (C1 - RtoC x * RtoC x) * Poly.eval Q x))%C.
Proof.
  unfold Poly.step; cbn [fst].
  rewrite eval_scale, !eval_add, eval_scale, !eval_mulX. ring.
Qed.

Lemma eval_step_Q (P Q : Poly.poly) (phi x : R) :
  Poly.eval (snd (Poly.step (P, Q) phi)) x
  = (Spec.cis (- phi) * (Poly.eval P x + RtoC x * Poly.eval Q x))%C.
Proof.
  unfold Poly.step; cbn [snd]. now rewrite eval_scale, eval_add, eval_mulX.
Qed.

Lemma length_step (P Q : Poly.poly) (phi : R) :
  length P = S (length Q) ->
  length (fst (Poly.step (P, Q) phi)) = S (length P)
  /\ length (snd (Poly.step (P, Q) phi)) = length P.
Proof.
  intros H. unfold Poly.step, Poly.mulX; cbn [fst snd].
  rewrite !length_scale, !length_add, length_scale. simpl. lia.
Qed.

Lemma length_fold_step (rest : list R) (P Q : Poly.poly) :
  length P = S (length Q) ->
  let PQ := fold_left Poly.step rest (P, Q) in
  length (fst PQ) = (length P + length rest)%nat
  /\ length (fst PQ) = S (length (snd PQ)).
Proof.
  revert P Q. induction rest as [| phi rest IH]; intros P Q H.
  - simpl. lia.
  - cbn [fold_left]. destruct (length_step P Q phi H) as [HP HQ].
    destruct (Poly.step (P, Q) phi) as [P' Q'] eqn:E. simpl in HP, HQ.
    destruct (IH P' Q') as [H1 H2]; [lia |].
    split; [| exact H2]. cbv zeta in H1. rewrite H1. simpl. lia.
Qed.

Lemma length_qsp_P (phi0 : R) (rest : list R) :
  length (fst (Poly.qsp_PQ phi0 rest)) = S (length rest).
Proof.
  unfold Poly.qsp_PQ.
  destruct (length_fold_step rest [Spec.cis phi0] []) as [H _]; [reflexivity |].
  exact H.
Qed.

Lemma length_qsp_Q (phi0 : R) (rest : list R) :
  length (snd (Poly.qsp_PQ phi0 rest)) = length rest.
Proof.
  unfold Poly.qsp_PQ.
  destruct (length_fold_step rest [Spec.cis phi0] []) as [H1 H2]; [reflexivity |].
  cbv zeta in H1, H2. rewrite H1 in H2. simpl in H2.
  injection H2 as H2. now symmetry.
Qed.

(** ** The shape of the QSP unitary *)

Lemma Cconj_opp (a : C) : Cconj (- a)%C = (- Cconj a)%C.
Proof. destruct a. Ceq. Qed.

Lemma Cconj_minus (a b : C) : Cconj (a - b)%C = (Cconj a - Cconj b)%C.
Proof. unfold Cminus. now rewrite Cconj_plus, Cconj_opp. Qed.

Lemma Cconj_C1 : Cconj C1 = C1.
Proof. Ceq. Qed.

Lemma qsp_form_step (P Q s : C) (x phi : R) :
  (s * s)%C = (C1 - RtoC x * RtoC x)%C ->
  let P' := (Spec.cis phi * (RtoC x * P - (C1 - RtoC x * RtoC x) * Q))%C in
  let Q' := (Spec.cis (- phi) * (P + RtoC x * Q))%C in
  Mmult (Mmult (qsp_form P Q (Cconj P) (Cconj Q) s)
               (mkMatrix (RtoC x) (Ci * s)%C (Ci * s)%C (RtoC x)))
        (Spec.S phi)
  = qsp_form P' Q' (Cconj P') (Cconj Q') s.
Proof.
  intros Hs P' Q'. subst P' Q'.
  rewrite !Cconj_mult, Cconj_plus, !Cconj_minus, !Cconj_mult, Cconj_minus,
    Cconj_mult, Cconj_C1, !Cconj_RtoC, !cis_conj, Ropp_involutive.
  unfold qsp_form, Mmult, Spec.S; simpl.
  f_equal; ring [Hs Ci_sq].
Qed.

Lemma has_form_step (x phi : R) (U : Matrix) (PQ : Poly.poly * Poly.poly) :
  has_form x U PQ -> has_form x (qsp_step x U phi) (Poly.step PQ phi).
Proof.
  unfold has_form. intros ->. destruct PQ as [P Q].
  rewrite eval_step_P, eval_step_Q. cbn [fst snd].
  unfold qsp_step, expected_w. rewrite expected_s_spec.
  apply qsp_form_step.
  rewrite sp_sqrt_sq. apply RtoC_one_minus_sq.
Qed.

Lemma has_form_fold (x : R) (rest : list R) (U : Matrix)
    (PQ : Poly.poly * Poly.poly) :
  has_form x U PQ ->
  has_form x (fold_left (qsp_step x) rest U) (fold_left Poly.step rest PQ).
Proof.
  revert U PQ. induction rest as [| phi rest IH]; intros U PQ H; simpl.
  - exact H.
  - apply IH, has_form_step, H.
Qed.

Lemma has_form_start (x phi0 : R) :
  has_form x (expected_s phi0) ([Spec.cis phi0], []).
Proof.
  unfold has_form. rewrite expected_s_spec.
  unfold Spec.S, qsp_form; cbn [fst snd Poly.eval].
  rewrite Cconj_plus, Cconj_mult, Cconj_C0, cis_conj.
  f_equal; ring.
Qed.

Lemma qsp_has_form (x phi0 : R) (rest : list R) :
  has_form x (fold_left (qsp_step x) rest (expected_s phi0))
           (Poly.qsp_PQ phi0 rest).
Proof. apply has_form_fold, has_form_start. Qed.

(** ** The loop of [qsp_polynomial] is the product of the specification *)

Lemma fold_qsp_step_prod (x : R) (rest : list R) (A : Matrix) :
  -1 <= x <= 1 ->
  fold_left (qsp_step x) rest A = Mmult A (Spec.prodWS x rest).
Proof.
  intros Hx. revert A. induction rest as [| phi rest IH]; intros A; simpl.
  - now rewrite Mmult_I2_r.
  - rewrite IH. unfold qsp_step.
    rewrite expected_s_spec, (expected_w_spec x Hx).
    now rewrite !Mmult_assoc.
Qed.

(** ** The circuit *)

Lemma math_acos_ok (x : R) : -1 <= x <= 1 -> math_acos x = Ok (acos x).
Proof.
  intros [H1 H2]. unfold math_acos.
  destruct (Rle_dec (-1) x); [| contradiction].
  destruct (Rle_dec x 1); [reflexivity | contradiction].
Qed.

Lemma qsp_circuit_loop_ok (x : R) (others : list R) (circ : QuantumCircuit) :
  -1 <= x <= 1 ->
  qsp_circuit_loop x circ others
  = Ok (circ ++ flat_map (fun phi => [rx (-2 * acos x); rz (-2 * phi)]) others).
Proof.
  intros Hx. revert circ.
  induction others as [| phi others IH]; intros circ; simpl.
  - now rewrite app_nil_r.
  - unfold WGate. rewrite (math_acos_ok x Hx). simpl.
    rewrite IH. unfold append, SGate. now rewrite <- !app_assoc.
Qed.

Lemma qsp_circuit_ok (x : R) (phases : list R) :
  phases <> [] -> -1 <= x <= 1 ->
  qsp_circuit x phases = Ok (Spec.buildCircuit phases x).
Proof.
  intros Hne Hx. unfold qsp_circuit, Spec.buildCircuit, float.
  rewrite map_id.
  destruct (rev phases) as [| last others] eqn:E.
  - apply (f_equal (@rev R)) in E. rewrite rev_involutive in E. contradiction.
  - rewrite qsp_circuit_loop_ok by assumption. reflexivity.
Qed.

Lemma fold_gates (circ : QuantumCircuit) (A : Matrix) :
  fold_left (fun U g => Mmult (gate_matrix g) U) circ A
  = Mmult (Operator circ) A.
Proof.
  unfold Operator. revert A.
  induction circ as [| g circ IH]; intros A; simpl.
  - now rewrite Mmult_I2_l.
  - rewrite IH, (IH (Mmult (gate_matrix g) I2)).
    now rewrite Mmult_I2_r, Mmult_assoc.
Qed.

Lemma Operator_cons (g : Gate) (circ : QuantumCircuit) :
  Operator (g :: circ) = Mmult (Operator circ) (gate_matrix g).
Proof.
  unfold Operator at 1. simpl. now rewrite fold_gates, Mmult_I2_r.
Qed.

Lemma gate_matrix_rz (phi : R) : gate_matrix (rz (-2 * phi)) = expected_s phi.
Proof.
  unfold gate_matrix, expected_s.
  replace (-2 * phi / 2) with (- phi) by field.
  rewrite !Cexp_i, !Cexp_minus_i. now rewrite Ropp_involutive.
Qed.

Lemma gate_matrix_rx (x : R) :
  -1 <= x <= 1 -> gate_matrix (rx (-2 * acos x)) = expected_w x.
Proof.
  intros Hx. rewrite (expected_w_spec x Hx). unfold gate_matrix, Spec.W.
  replace (-2 * acos x / 2) with (- acos x) by field.
  rewrite cos_neg, sin_neg, (cos_acos x Hx), (sin_acos x Hx).
  unfold Rsqr. f_equal; Ceq.
Qed.

Lemma Operator_gates_of (x phi0 : R) (rest : list R) :
  -1 <= x <= 1 ->
  Operator (Spec.gates_of x (rev (phi0 :: rest)))
  = fold_left (qsp_step x) rest (expected_s phi0).
Proof.
  intros Hx. induction rest as [| phi rest IH] using rev_ind.
  - simpl. rewrite Operator_cons, gate_matrix_rz.
    unfold Operator; simpl. now rewrite Mmult_I2_l.
  - rewrite fold_left_app. cbn [fold_left]. rewrite <- IH.
    replace (rev (phi0 :: rest ++ [phi])) with (phi :: rev (phi0 :: rest))
      by (rewrite app_comm_cons, rev_app_distr; reflexivity).
    remember (rev (phi0 :: rest)) as l eqn:E.
    destruct l as [| last others].
    + apply (f_equal (@length R)) in E. rewrite length_rev in E. discriminate.
    + cbn [Spec.gates_of flat_map app].
      rewrite !Operator_cons, !gate_matrix_rz, (gate_matrix_rx x Hx).
      reflexivity.
Qed.

Lemma close_refl (eps : R) (A : Matrix) : 0 < eps -> Spec.close eps A A.
Proof.
  intros He.
  assert (H : forall z : C, Cmod (z - z)%C < eps).
  { intros [a b]. unfold Cmod. Csimpl.
    replace ((a + - a) * (a + - a) + (b + - b) * (b + - b)) with 0 by ring.
    now rewrite sqrt_0. }
  unfold Spec.close. auto.
Qed.

Lemma qsp_polynomial_ok (x phi0 : R) (rest : list R) :
  qsp_polynomial x (phi0 :: rest)
  = Ok (let U := fold_left (qsp_step x) rest (expected_s phi0) in
        (U, m00 U, m01 U)).
Proof. reflexivity. Qed.

(** ** C1: the matrix returned by [qsp_polynomial] *)

(** C1.  For a non-empty phase sequence, [qsp_polynomial] returns, at every
    real [x], a matrix together with its top-left and top-right entries; the
    top-left entry is the value at [x] of one polynomial with at most
    [len(phases)] coefficients (degree at most [len(phases) - 1]); and for
    [x] in [-1, 1] the matrix is [S(phi_0) prod_i W(x) S(phi_i)]. *)
Theorem qsp_polynomial_is_product (phases : list R) :
  phases <> [] ->
  exists P : Poly.poly,
    (length P <= length phases)%nat /\
    forall x : R,
      exists U : Matrix,
        qsp_polynomial x phases = Ok (U, m00 U, m01 U) /\
        m00 U = Poly.eval P x /\
        (-1 <= x <= 1 -> U = Spec.buildUnitary phases x).
Proof.
  intros Hne. destruct phases as [| phi0 rest]; [contradiction |].
  exists (fst (Poly.qsp_PQ phi0 rest)). split.
  - rewrite length_qsp_P. simpl. lia.
  - intros x. exists (fold_left (qsp_step x) rest (expected_s phi0)).
    split; [apply qsp_polynomial_ok |]. split.
    + pose proof (qsp_has_form x phi0 rest) as H. unfold has_form in H.
      rewrite H at 1. reflexivity.
    + intros Hx. rewrite (fold_qsp_step_prod x rest _ Hx), expected_s_spec.
      reflexivity.
Qed.

Lemma qsp_polynomial_is_product_witness :
  [1 / 10; 1 / 5] <> [] /\
  exists P : Poly.poly,
    (length P <= length [1 / 10; 1 / 5])%nat /\
    forall x : R,
      exists U : Matrix,
        qsp_polynomial x [1 / 10; 1 / 5] = Ok (U, m00 U, m01 U) /\
        m00 U = Poly.eval P x /\
        (-1 <= x <= 1 -> U = Spec.buildUnitary [1 / 10; 1 / 5] x).
Proof.
  split; [discriminate | apply (qsp_polynomial_is_product [1 / 10; 1 / 5]); discriminate].
Defined.

(** ** C2: the circuit has the unitary of the matrix product *)

(** C2.  For a phase sequence of length at least 1 and [x] in [-1, 1],
    [qsp_circuit] returns the gates [rz(-2 phi_d)], then [rx(-2 acos x)],
    [rz(-2 phi_i)] for i = d-1 down to 0 (rightmost factor first), and its
    unitary equals the matrix of [qsp_polynomial], so every entry agrees
    within 1e-9. *)
Theorem qsp_circuit_matches_polynomial (phases : list R) (x : R) :
  phases <> [] -> -1 <= x <= 1 ->
  exists (circ : QuantumCircuit) (U : Matrix),
    qsp_circuit x phases = Ok circ /\
    circ = Spec.buildCircuit phases x /\
    qsp_polynomial x phases = Ok (U, m00 U, m01 U) /\
    Operator circ = U /\
    Spec.close (1 / 10 ^ 9) (Operator circ) U.
Proof.
  intros Hne Hx. destruct phases as [| phi0 rest]; [contradiction |].
  exists (Spec.buildCircuit (phi0 :: rest) x).
  exists (fold_left (qsp_step x) rest (expected_s phi0)).
  split; [apply qsp_circuit_ok; assumption |].
  split; [reflexivity |].
  split; [apply qsp_polynomial_ok |].
  unfold Spec.buildCircuit. rewrite (Operator_gates_of x phi0 rest Hx).
  split; [reflexivity |].
  apply close_refl. lra.
Qed.

Lemma qsp_circuit_matches_polynomial_witness :
  exists (circ : QuantumCircuit) (U : Matrix),
    qsp_circuit (1 / 2) [1 / 10; 1 / 5; 3 / 10; 2 / 5] = Ok circ /\
    circ = Spec.buildCircuit [1 / 10; 1 / 5; 3 / 10; 2 / 5] (1 / 2) /\
    qsp_polynomial (1 / 2) [1 / 10; 1 / 5; 3 / 10; 2 / 5] = Ok (U, m00 U, m01 U) /\
    Operator circ = U /\
    Spec.close (1 / 10 ^ 9) (Operator circ) U.
Proof.
  apply (qsp_circuit_matches_polynomial [1 / 10; 1 / 5; 3 / 10; 2 / 5] (1 / 2));
    [discriminate | lra].
Defined.

(** ** Histograms *)

Lemma counts_shots_insert (counts : Counts) (k : string) (v : nat) :
  counts !! k = None ->
  counts_shots (<[k := v]> counts) = (v + counts_shots counts)%nat.
Proof.
  intros Hk. unfold counts_shots.
  apply (map_fold_insert_L (fun _ v acc => (v + acc)%nat)); [| exact Hk].
  intros; lia.
Qed.

Lemma lookup_le_counts_shots (counts : Counts) (k : string) (v : nat) :
  counts !! k = Some v -> (v <= counts_shots counts)%nat.
Proof.
  revert v. induction counts as [| j y m Hj IH] using map_ind; intros v Hv.
  - rewrite lookup_empty in Hv. discriminate.
  - rewrite counts_shots_insert by exact Hj.
    destruct (decide (j = k)) as [-> | Hne].
    + rewrite lookup_insert_eq in Hv. injection Hv as ->. lia.
    + rewrite lookup_insert_ne in Hv by exact Hne.
      specialize (IH v Hv). lia.
Qed.

Lemma counts_get_le_shots (counts : Counts) (k : string) :
  (counts_get counts k 0 <= counts_shots counts)%nat.
Proof.
  unfold counts_get. destruct (counts !! k) as [v |] eqn:E; simpl.
  - eapply lookup_le_counts_shots, E.
  - lia.
Qed.

Lemma probability_of_ok (counts : Counts) :
  (0 < counts_shots counts)%nat ->
  probability_of counts = Ok (fraction_zero counts).
Proof.
  intros H. unfold probability_of, truediv, fraction_zero.
  destruct (counts_shots counts); [lia | reflexivity].
Qed.

Lemma fraction_zero_bounds (counts : Counts) :
  (0 < counts_shots counts)%nat -> 0 <= fraction_zero counts <= 1.
Proof.
  intros H. unfold fraction_zero.
  pose proof (counts_get_le_shots counts "0") as Hle.
  apply lt_INR in H. apply le_INR in Hle. simpl in H.
  pose proof (pos_INR (counts_get counts "0" 0)) as H0.
  split.
  - apply Rmult_le_pos; [exact H0 | left; now apply Rinv_0_lt_compat].
  - apply (Rmult_le_reg_r (INR (counts_shots counts))); [exact H |].
    unfold Rdiv. rewrite Rmult_assoc, Rinv_l by lra. lra.
Qed.

Lemma counts_shots_all_zero (n : nat) :
  counts_shots ({[ "0" := n ]} : Counts) = n.
Proof. unfold counts_shots. rewrite map_fold_singleton. lia. Qed.

Lemma all_zero_honours_shots {Circ : Type} :
  honours_shots (@all_zero_backend Circ).
Proof. intros n c k. apply counts_shots_all_zero. Qed.

(** ** C6: the probability estimated from one job *)

(** C6.  For a job with [shots > 0] answered with as many outcomes as shots,
    the estimate is the number of outcomes '0' divided by the number of
    shots: [v / shots] when the histogram holds the entry ['0' : v], and 0
    when it holds no entry for '0'; it lies in [0, 1].  Reading the result
    adds one wait for that job to the backend's log. *)
Theorem job_probability_fraction {Circ : Type} (backend : Backend Circ)
    (job : Job Circ) (w : World) :
  (0 < job_shots job)%nat ->
  honours_shots backend ->
  let counts := execute backend (job_id job) (job_circuit job) (job_shots job) in
  exists (p : R) (w' : World),
    job_probability backend job w = (Ok p, w') /\
    w' = mkWorld (next_job w) (log w ++ [Await (job_id job)]) /\
    p = INR (counts_get counts "0" 0%nat) / INR (job_shots job) /\
    (forall v : nat, counts !! "0" = Some v -> p = INR v / INR (job_shots job)) /\
    (counts !! "0" = None -> p = 0) /\
    0 <= p <= 1.
Proof.
  intros Hpos Hb counts.
  assert (Hs : counts_shots counts = job_shots job) by apply Hb.
  assert (Hc : (0 < counts_shots counts)%nat) by lia.
  exists (fraction_zero counts). eexists.
  split; [| split; [| split; [| split; [| split]]]].
  - unfold job_probability, bind, job_result, lift. fold counts.
    now rewrite (probability_of_ok counts Hc).
  - reflexivity.
  - unfold fraction_zero. now rewrite Hs.
  - intros v Hv. unfold fraction_zero, counts_get. rewrite Hv, Hs. reflexivity.
  - intros Hnone. unfold fraction_zero, counts_get. rewrite Hnone. simpl.
    unfold Rdiv. apply Rmult_0_l.
  - now apply fraction_zero_bounds.
Qed.

Lemma job_probability_fraction_witness :
  let job : Job QuantumCircuit := mkJob 0 [rz 0] 100 in
  let w := mkWorld 1 [Submit 0%nat] in
  let counts := execute all_zero_backend (job_id job) (job_circuit job) (job_shots job) in
  exists (p : R) (w' : World),
    job_probability all_zero_backend job w = (Ok p, w') /\
    w' = mkWorld (next_job w) (log w ++ [Await (job_id job)]) /\
    p = INR (counts_get counts "0" 0%nat) / INR (job_shots job) /\
    (forall v : nat, counts !! "0" = Some v -> p = INR v / INR (job_shots job)) /\
    (counts !! "0" = None -> p = 0) /\
    0 <= p <= 1.
Proof.
  apply (job_probability_fraction all_zero_backend (mkJob 0 [rz 0] 100)
           (mkWorld 1 [Submit 0%nat])).
  - simpl. lia.
  - apply all_zero_honours_shots.
Defined.

(** ** C4: the sweep over [xs] *)

Lemma submit_jobs_ok {X Circ : Type} (circuit_function : X -> result Circ)
    (xs : list X) (num_shots : nat) (w : World) :
  Forall (fun x => exists c, circuit_function x = Ok c) xs ->
  exists circuits : list Circ,
    Forall2 (fun x c => circuit_function x = Ok c) xs circuits /\
    submit_jobs circuit_function xs num_shots w
    = (Ok (jobs_from (next_job w) circuits num_shots),
       mkWorld (next_job w + length xs)
               (log w ++ map Submit (seq (next_job w) (length xs)))).
Proof.
  intros H. revert w. induction H as [| x xs [c Hc] _ IH]; intros w.
  - exists []. split; [constructor |].
    simpl. unfold ret. destruct w as [n l]; simpl.
    now rewrite Nat.add_0_r, app_nil_r.
  - destruct (IH (mkWorld (S (next_job w)) (log w ++ [Submit (next_job w)])))
      as (cs & Hcs & Heq).
    exists (c :: cs). split; [now constructor |].
    cbn [submit_jobs]. unfold bind at 1. unfold lift at 1. rewrite Hc.
    unfold bind at 1. unfold backend_run at 1.
    unfold bind at 1. rewrite Heq. unfold ret. cbn.
    rewrite <- app_assoc. repeat f_equal. lia.
Qed.

Lemma collect_jobs_ok {Circ : Type} (backend : Backend Circ)
    (jobs : list (Job Circ)) (ys : list R) (w : World) :
  Forall (fun job => (0 < counts_shots
            (execute backend (job_id job) (job_circuit job) (job_shots job)))%nat)
         jobs ->
  collect_jobs backend jobs ys w
  = (Ok (ys ++ map (fun job => fraction_zero
            (execute backend (job_id job) (job_circuit job) (job_shots job)))
          jobs),
     mkWorld (next_job w) (log w ++ map (fun job => Await (job_id job)) jobs)).
Proof.
  intros H. revert ys w. induction H as [| job jobs Hjob _ IH]; intros ys w.
  - simpl. unfold ret. destruct w; simpl. now rewrite !app_nil_r.
  - cbn [collect_jobs]. unfold bind at 1.
    unfold job_probability, bind, job_result, lift.
    rewrite (probability_of_ok _ Hjob). rewrite IH. cbn.
    now rewrite <- !app_assoc.
Qed.

Lemma jobs_from_lookup {Circ : Type} (circuits : list Circ) (start n i : nat) :
  jobs_from start circuits n !! i
  = (fun c => mkJob (start + i) c n) <$> (circuits !! i).
Proof.
  revert start i. induction circuits as [| c cs IH]; intros start i.
  - reflexivity.
  - destruct i as [| i]; simpl.
    + now rewrite Nat.add_0_r.
    + rewrite IH. now rewrite Nat.add_succ_r.
Qed.

Lemma jobs_from_ids {Circ : Type} (circuits : list Circ) (start n : nat) :
  map job_id (jobs_from start circuits n) = seq start (length circuits).
Proof.
  revert start. induction circuits as [| c cs IH]; intros start; simpl.
  - reflexivity.
  - now rewrite IH.
Qed.

Lemma jobs_from_shots {Circ : Type} (circuits : list Circ) (start n : nat) :
  Forall (fun job => job_shots job = n) (jobs_from start circuits n).
Proof.
  revert start. induction circuits as [| c cs IH]; intros start; simpl.
  - constructor.
  - constructor; [reflexivity | apply IH].
Qed.

(** C4.  When the circuit can be built for every [x] of [xs], [shots > 0]
    and the backend answers every job in full, [simulate_polynomial] returns
    one probability per element of [xs] in the order of [xs]: the i-th one
    is the estimate from the job submitted for [xs[i]] alone.  The backend
    sees all submissions first and then the waits, both in the order of
    [xs]. *)
Theorem simulate_polynomial_order {X Circ : Type} (backend : Backend Circ)
    (circuit_function : X -> result Circ) (xs : list X) (num_shots : nat)
    (w : World) :
  (0 < num_shots)%nat ->
  honours_shots backend ->
  Forall (fun x => exists c, circuit_function x = Ok c) xs ->
  exists (ys : list R) (w' : World),
    simulate_polynomial backend circuit_function xs num_shots w = (Ok ys, w') /\
    length ys = length xs /\
    (forall (i : nat) (x : X), xs !! i = Some x ->
       exists c : Circ,
         circuit_function x = Ok c /\
         ys !! i = Some (fraction_zero
                           (execute backend (next_job w + i) c num_shots))) /\
    log w' = log w
             ++ map Submit (seq (next_job w) (length xs))
             ++ map Await (seq (next_job w) (length xs)).
Proof.
  intros Hpos Hb Hxs.
  destruct (submit_jobs_ok circuit_function xs num_shots w Hxs)
    as (circuits & Hcs & Hsub).
  pose proof (Forall2_length _ _ _ Hcs) as Hlen.
  set (jobs := jobs_from (next_job w) circuits num_shots) in *.
  assert (Hjobs : Forall (fun job => (0 < counts_shots
             (execute backend (job_id job) (job_circuit job) (job_shots job)))%nat)
           jobs).
  { eapply Forall_impl; [apply jobs_from_shots |].
    intros job Hj. cbn beta in Hj. rewrite Hb, Hj. exact Hpos. }
  eexists. eexists. split.
  { unfold simulate_polynomial, bind. rewrite Hsub.
    rewrite (collect_jobs_ok backend jobs [] _ Hjobs). reflexivity. }
  cbn [app next_job log]. split; [| split].
  - rewrite length_map. subst jobs.
    rewrite <- (length_map job_id), jobs_from_ids, length_seq. now symmetry.
  - intros i x Hi.
    destruct (Forall2_lookup_l _ _ _ _ _ Hcs Hi) as (c & Hc & Hfx).
    exists c. split; [exact Hfx |].
    change (map ?f jobs) with (f <$> jobs).
    rewrite list_lookup_fmap. subst jobs.
    rewrite jobs_from_lookup, Hc. reflexivity.
  - rewrite <- app_assoc. do 2 f_equal.
    rewrite <- (map_map job_id Await). subst jobs.
    now rewrite jobs_from_ids, Hlen.
Qed.

Lemma simulate_polynomial_order_witness :
  exists (ys : list R) (w' : World),
    simulate_polynomial all_zero_backend (experiment_circuit [1 / 10; 1 / 5])
                        [0; 1 / 2] 100 (mkWorld 0 []) = (Ok ys, w') /\
    length ys = length [0; 1 / 2] /\
    (forall (i : nat) (x : R), [0; 1 / 2] !! i = Some x ->
       exists c : Experiment,
         experiment_circuit [1 / 10; 1 / 5] x = Ok c /\
         ys !! i = Some (fraction_zero
                           (execute all_zero_backend (0 + i) c 100))) /\
    log w' = []
             ++ map Submit (seq 0 (length [0; 1 / 2]))
             ++ map Await (seq 0 (length [0; 1 / 2])).
Proof.
  apply (simulate_polynomial_order all_zero_backend
           (experiment_circuit [1 / 10; 1 / 5]) [0; 1 / 2] 100 (mkWorld 0 [])).
  - lia.
  - apply all_zero_honours_shots.
  - repeat constructor; unfold experiment_circuit;
      (rewrite qsp_circuit_ok; [simpl; eauto | discriminate | lra]).
Defined.

(** ** C5: the empty phase sequence *)

(** C5.  On the empty phase sequence [qsp_polynomial] fails its assertion
    and [qsp_circuit] fails at [np_phases[0]], whatever [x] is: neither
    returns a matrix or a circuit.  A sweep whose circuit function is built
    on the empty sequence stops at the first [x], the backend's log and job
    counter untouched. *)
Theorem empty_phases_rejected (x : R)
    (backend : Backend Experiment) (xs : list R) (num_shots : nat) (w : World) :
  qsp_polynomial x [] = Raise (AssertionError "phases cannot be empty") /\
  qsp_circuit x [] = Raise IndexError /\
  simulate_polynomial backend (experiment_circuit []) (x :: xs) num_shots w
  = (Raise IndexError, w).
Proof. repeat split. Qed.

(** ** C9: a single phase *)

(** C9.  With exactly one phase [qsp_polynomial] returns [S(phi_0)], whose
    top-left entry [e^{i phi_0}] does not depend on [x], and [qsp_circuit]
    returns the one gate of [SGate(phi_0)], with no [rx] gate, for every
    [x]. *)
Theorem single_phase (x phi0 : R) :
  qsp_polynomial x [phi0] = Ok (Spec.S phi0, Spec.cis phi0, C0) /\
  qsp_circuit x [phi0] = Ok (SGate phi0) /\
  SGate phi0 = [rz (-2 * phi0)].
Proof.
  split; [| split; reflexivity].
  unfold qsp_polynomial, simplify. cbn [fold_left].
  rewrite expected_s_spec. reflexivity.
Qed.

(** ** C8: the notebook's phases at [x = 0] *)



(** ** C7: the boundary values [x = 1] and [x = -1] *)

Lemma cis_plus (a b : R) : (Spec.cis a * Spec.cis b)%C = Spec.cis (a + b).
Proof. unfold Spec.cis. rewrite cos_plus, sin_plus. Ceq. Qed.

Lemma S_mult (a b : R) : Mmult (Spec.S a) (Spec.S b) = Spec.S (a + b).
Proof.
  unfold Spec.S, Mmult; simpl.
  replace (- (a + b)) with (- a + - b) by ring.
  rewrite <- !cis_plus. f_equal; ring.
Qed.

Lemma expected_w_1 : expected_w 1 = I2.
Proof.
  unfold expected_w, I2. replace (1 - 1 ^ 2) with 0 by ring.
  rewrite sp_sqrt_nonneg by lra. rewrite sqrt_0. f_equal; Ceq.
Qed.

Lemma expected_w_m1 : expected_w (-1) = Mscale (RtoC (-1)) I2.
Proof.
  unfold expected_w, I2, Mscale. replace (1 - (-1) ^ 2) with 0 by ring.
  rewrite sp_sqrt_nonneg by lra. rewrite sqrt_0. cbn [m00 m01 m10 m11].
  f_equal; Ceq.
Qed.

Lemma Mmult_Mscale_l (c : C) (A B : Matrix) :
  Mmult (Mscale c A) B = Mscale c (Mmult A B).
Proof. unfold Mmult, Mscale; simpl. f_equal; ring. Qed.

Lemma Mmult_Mscale_r (c : C) (A B : Matrix) :
  Mmult A (Mscale c B) = Mscale c (Mmult A B).
Proof. unfold Mmult, Mscale; simpl. f_equal; ring. Qed.

Lemma Mscale_Mscale (c d : C) (A : Matrix) :
  Mscale c (Mscale d A) = Mscale (c * d)%C A.
Proof. unfold Mscale; simpl. f_equal; ring. Qed.

Lemma Mscale_1 (A : Matrix) : Mscale (RtoC 1) A = A.
Proof. destruct A as [[] [] [] []]. unfold Mscale; simpl. f_equal; Ceq. Qed.

Lemma RtoC_mult (a b : R) : (RtoC a * RtoC b)%C = RtoC (a * b).
Proof. Ceq. Qed.

Lemma fold_qsp_step_at_1 (rest : list R) (a : R) :
  fold_left (qsp_step 1) rest (Spec.S a) = Spec.S (a + sum_phases rest).
Proof.
  revert a. induction rest as [| phi rest IH]; intros a; simpl.
  - now rewrite Rplus_0_r.
  - unfold qsp_step at 2.
    rewrite expected_w_1, Mmult_I2_r, expected_s_spec, S_mult, IH.
    now rewrite Rplus_assoc.
Qed.

Lemma fold_qsp_step_at_m1 (rest : list R) (sigma a : R) :
  fold_left (qsp_step (-1)) rest (Mscale (RtoC sigma) (Spec.S a))
  = Mscale (RtoC (sigma * (-1) ^ length rest)) (Spec.S (a + sum_phases rest)).
Proof.
  revert sigma a. induction rest as [| phi rest IH]; intros sigma a; simpl.
  - now rewrite Rplus_0_r, Rmult_1_r.
  - unfold qsp_step at 2.
    rewrite expected_w_m1.
    repeat first [rewrite Mmult_Mscale_l | rewrite Mmult_Mscale_r].
    rewrite Mmult_I2_r, Mscale_Mscale, expected_s_spec, S_mult, RtoC_mult.
    rewrite IH. rewrite Rplus_assoc. do 2 f_equal. ring.
Qed.

Lemma Cnorm2_cis (t : R) : Cnorm2 (Spec.cis t) = 1.
Proof.
  unfold Cnorm2, Spec.cis; simpl.
  pose proof (sin2_cos2 t) as H. unfold Rsqr in H. lra.
Qed.

Lemma pow_m1_sq (n : nat) : (-1) ^ n * (-1) ^ n = 1.
Proof. rewrite <- Rpow_mult_distr. replace (-1 * -1) with 1 by ring. apply pow1. Qed.

(** C7 as stated fails: with the single phase [pi/2] the top-left entry at
    [x = 1] is [i], which is not real. *)
Lemma boundary_entry_not_real :
  ~ (forall (phases : list R) (x : R),
       phases <> [] -> x = 1 \/ x = -1 ->
       exists (U : Matrix) (p q : C),
         qsp_polynomial x phases = Ok (U, p, q) /\ Im p = 0).
Proof.
  intros H.
  destruct (H [PI / 2] 1) as (U & p & q & E & Him); [discriminate | now left |].
  rewrite qsp_polynomial_ok in E. cbn [fold_left] in E. cbv zeta in E.
  rewrite expected_s_spec in E. injection E as _ Hp _.
  subst p. unfold Spec.S, Spec.cis, Im in Him. simpl in Him.
  rewrite sin_PI2 in Him. lra.
Qed.

(** C7, amended.  For a non-empty phase sequence [qsp_polynomial] returns a
    matrix at [x = 1] and at [x = -1]; its top-left entry is
    [e^{i (phi_0 + ... + phi_d)}] at [x = 1] and [(-1)^d] times that at
    [x = -1], a number of modulus 1 whose imaginary part is
    [sin(phi_0 + ... + phi_d)] up to that sign. *)
Theorem boundary_values (phases : list R) :
  phases <> [] ->
  let t := sum_phases phases in
  let sigma := (-1) ^ (length phases - 1) in
  exists q1 q2 : C,
    qsp_polynomial 1 phases = Ok (Spec.S t, Spec.cis t, q1) /\
    qsp_polynomial (-1) phases
    = Ok (Mscale (RtoC sigma) (Spec.S t), (RtoC sigma * Spec.cis t)%C, q2) /\
    Im (Spec.cis t) = sin t /\
    Im (RtoC sigma * Spec.cis t)%C = sigma * sin t /\
    Cnorm2 (Spec.cis t) = 1 /\
    Cnorm2 (RtoC sigma * Spec.cis t)%C = 1.
Proof.
  intros Hne t sigma. destruct phases as [| phi0 rest]; [contradiction |].
  eexists. eexists.
  split; [| split; [| split; [| split; [| split]]]].
  - rewrite qsp_polynomial_ok, expected_s_spec, fold_qsp_step_at_1.
    reflexivity.
  - assert (E : fold_left (qsp_step (-1)) rest (expected_s phi0)
                 = Mscale (RtoC sigma) (Spec.S t)).
    { rewrite expected_s_spec, <- (Mscale_1 (Spec.S phi0)).
      rewrite fold_qsp_step_at_m1, Rmult_1_l.
      subst sigma t.
      replace (length (phi0 :: rest) - 1)%nat with (length rest) by (simpl; lia).
      reflexivity. }
    rewrite qsp_polynomial_ok, E. reflexivity.
  - reflexivity.
  - unfold Spec.cis. Csimpl. ring.
  - apply Cnorm2_cis.
  - pose proof (Cnorm2_cis t) as H1.
    pose proof (pow_m1_sq (length (phi0 :: rest) - 1)) as H2.
    fold sigma in H2. unfold Spec.cis in *. Csimpl. nra.
Qed.

Lemma boundary_values_witness :
  let phases := [1 / 10; 1 / 5; 3 / 10; 2 / 5] in
  let t := sum_phases phases in
  let sigma := (-1) ^ (length phases - 1) in
  exists q1 q2 : C,
    qsp_polynomial 1 phases = Ok (Spec.S t, Spec.cis t, q1) /\
    qsp_polynomial (-1) phases
    = Ok (Mscale (RtoC sigma) (Spec.S t), (RtoC sigma * Spec.cis t)%C, q2) /\
    Im (Spec.cis t) = sin t /\
    Im (RtoC sigma * Spec.cis t)%C = sigma * sin t /\
    Cnorm2 (Spec.cis t) = 1 /\
    Cnorm2 (RtoC sigma * Spec.cis t)%C = 1.
Proof.
  apply (boundary_values [1 / 10; 1 / 5; 3 / 10; 2 / 5]). discriminate.
Defined.

(** ** C10: unitarity and conjugate symmetry *)

Lemma adjoint_mult (A B : Matrix) :
  adjoint (Mmult A B) = Mmult (adjoint B) (adjoint A).
Proof.
  unfold adjoint, Mmult; simpl.
  rewrite !Cconj_plus, !Cconj_mult. f_equal; ring.
Qed.

Lemma unitary_mult (A B : Matrix) : unitary A -> unitary B -> unitary (Mmult A B).
Proof.
  unfold unitary. intros HA HB.
  rewrite adjoint_mult, Mmult_assoc, <- (Mmult_assoc B), HB, Mmult_I2_l.
  exact HA.
Qed.

Lemma unitary_S (phi : R) : unitary (Spec.S phi).
Proof.
  unfold unitary, Spec.S, adjoint, Mmult, I2; simpl.
  rewrite !cis_conj, Ropp_involutive, Cconj_C0.
  pose proof (cis_mult_conj phi) as H1.
  pose proof (cis_mult_conj (- phi)) as H2. rewrite Ropp_involutive in H2.
  f_equal; ring [H1 H2].
Qed.

Lemma unitary_W (x : R) : -1 <= x <= 1 -> unitary (Spec.W x).
Proof.
  intros Hx.
  assert (Ht : sqrt (1 - x * x) * sqrt (1 - x * x) = 1 - x * x)
    by (apply sqrt_sqrt; nra).
  unfold unitary, Spec.W, adjoint, Mmult, I2. Csimpl.
  f_equal; apply injective_projections; simpl; nra.
Qed.

Lemma unitary_fold (x : R) (rest : list R) (A : Matrix) :
  -1 <= x <= 1 -> unitary A -> unitary (fold_left (qsp_step x) rest A).
Proof.
  intros Hx. revert A. induction rest as [| phi rest IH]; intros A HA; simpl.
  - exact HA.
  - apply IH. unfold qsp_step.
    rewrite expected_s_spec, (expected_w_spec x Hx).
    auto using unitary_mult, unitary_W, unitary_S.
Qed.

Lemma Cconj_Ci : Cconj Ci = (- Ci)%C.
Proof. Ceq. Qed.

(** C10.  For a non-empty sequence of real phases there are polynomials
    [P] and [Q], of degree at most [d] and less than [d], such that for every
    real [x] in [-1, 1] the matrix [U] returned by [qsp_polynomial] is
    unitary, [U[1,1]] is the conjugate of [U[0,0]], [U[1,0]] is minus the
    conjugate of [U[0,1]], and [U] is
    (P(x), i Q(x) s; i conj(Q)(x) s, conj(P)(x)) with [s = sqrt(1 - x^2)]. *)
Theorem qsp_unitary (phases : list R) :
  phases <> [] ->
  exists P Q : Poly.poly,
    (length P <= length phases)%nat /\
    (length Q < length phases)%nat /\
    forall x : R, -1 <= x <= 1 ->
      exists U : Matrix,
        qsp_polynomial x phases = Ok (U, m00 U, m01 U) /\
        unitary U /\
        m11 U = Cconj (m00 U) /\
        m10 U = (- Cconj (m01 U))%C /\
        U = qsp_form (Poly.eval P x) (Poly.eval Q x)
                     (Poly.eval (Poly.conj P) x) (Poly.eval (Poly.conj Q) x)
                     (RtoC (sqrt (1 - x * x))).
Proof.
  intros Hne. destruct phases as [| phi0 rest]; [contradiction |].
  exists (fst (Poly.qsp_PQ phi0 rest)), (snd (Poly.qsp_PQ phi0 rest)).
  rewrite length_qsp_P, length_qsp_Q.
  split; [simpl; lia |]. split; [simpl; lia |].
  intros x Hx.
  exists (fold_left (qsp_step x) rest (expected_s phi0)).
  split; [apply qsp_polynomial_ok |].
  split.
  { apply unitary_fold; [exact Hx |]. rewrite expected_s_spec. apply unitary_S. }
  pose proof (qsp_has_form x phi0 rest) as H. unfold has_form in H.
  rewrite sp_sqrt_nonneg in H by nra.
  replace (1 - x ^ 2) with (1 - x * x) in H by ring.
  rewrite H, !eval_conj. unfold qsp_form. cbn [m00 m01 m10 m11].
  split; [reflexivity |]. split; [| reflexivity].
  rewrite !Cconj_mult, Cconj_Ci, Cconj_RtoC. ring.
Qed.

Lemma qsp_unitary_witness :
  [1 / 10; 1 / 5; 3 / 10; 2 / 5] <> [] /\
  exists P Q : Poly.poly,
    (length P <= length [1 / 10; 1 / 5; 3 / 10; 2 / 5])%nat /\
    (length Q < length [1 / 10; 1 / 5; 3 / 10; 2 / 5])%nat /\
    forall x : R, -1 <= x <= 1 ->
      exists U : Matrix,
        qsp_polynomial x [1 / 10; 1 / 5; 3 / 10; 2 / 5] = Ok (U, m00 U, m01 U) /\
        unitary U /\
        m11 U = Cconj (m00 U) /\
        m10 U = (- Cconj (m01 U))%C /\
        U = qsp_form (Poly.eval P x) (Poly.eval Q x)
                     (Poly.eval (Poly.conj P) x) (Poly.eval (Poly.conj Q) x)
                     (RtoC (sqrt (1 - x * x))).
Proof.
  split; [discriminate |].
  apply (qsp_unitary [1 / 10; 1 / 5; 3 / 10; 2 / 5]). discriminate.
Defined.

(** ** Born probabilities and the ideal simulator *)

Lemma unitary_gate (g : Gate) : unitary (gate_matrix g).
Proof.
  destruct g as [t | t].
  - pose proof (sin2_cos2 (t / 2)) as H. unfold Rsqr in H.
    unfold unitary, gate_matrix, adjoint, Mmult, I2. Csimpl.
    f_equal; apply injective_projections; simpl; nra.
  - replace t with (-2 * (- t / 2)) by field.
    rewrite gate_matrix_rz, expected_s_spec. apply unitary_S.
Qed.

Lemma unitary_Operator (circ : QuantumCircuit) : unitary (Operator circ).
Proof.
  induction circ as [| g circ IH].
  - unfold Operator, unitary, adjoint, Mmult, I2; simpl. f_equal; Ceq.
  - rewrite Operator_cons. apply unitary_mult; [exact IH | apply unitary_gate].
Qed.

Lemma unitary_m00_le_1 (U : Matrix) : unitary U -> Cnorm2 (m00 U) <= 1.
Proof.
  destruct U as [[a b] [c d] m2 m3]. unfold unitary, adjoint, Mmult, I2.
  intros H. injection H as H _. Csimpl. nra.
Qed.

Lemma prob_zero_bounds (circ : QuantumCircuit) : 0 <= prob_zero circ <= 1.
Proof.
  split.
  - unfold prob_zero, Cnorm2. nra.
  - apply unitary_m00_le_1, unitary_Operator.
Qed.

Lemma floor_nat_bounds (r : R) :
  0 <= r -> INR (floor_nat r) <= r < INR (floor_nat r) + 1.
Proof.
  intros Hr. unfold floor_nat.
  destruct (base_Int_part r) as [H1 H2].
  assert (Hz : (0 <= Int_part r)%Z).
  { apply Z.lt_succ_r. apply lt_IZR.
    replace (Z.succ (Int_part r)) with (Int_part r + 1)%Z by lia.
    rewrite plus_IZR. simpl. lra. }
  rewrite INR_IZR_INZ, Z2Nat.id by exact Hz. lra.
Qed.

Lemma born_zeros_le (e : Experiment) (n : nat) :
  (floor_nat (INR n * prob_zero (gates e)) <= n)%nat.
Proof.
  pose proof (prob_zero_bounds (gates e)) as [Hp0 Hp1].
  pose proof (pos_INR n) as Hn.
  destruct (floor_nat_bounds (INR n * prob_zero (gates e))) as [H _]; [nra |].
  apply INR_le. nra.
Qed.

Lemma born_counts_get (e : Experiment) (j n : nat) :
  counts_get (execute born_backend j e n) "0" 0%nat
  = floor_nat (INR n * prob_zero (gates e)).
Proof.
  unfold counts_get, born_backend; cbn [execute].
  now rewrite lookup_insert_eq.
Qed.

Lemma born_honours_shots : honours_shots born_backend.
Proof.
  intros j e n. unfold born_backend; cbn [execute].
  rewrite counts_shots_insert.
  - unfold counts_shots. rewrite map_fold_singleton.
    pose proof (born_zeros_le e n). lia.
  - apply lookup_singleton_ne. discriminate.
Qed.

Lemma born_fraction_close (e : Experiment) (j k : nat) :
  Rabs (fraction_zero (execute born_backend j e (S k)) - prob_zero (gates e))
  <= / INR (S k).
Proof.
  unfold fraction_zero. rewrite born_honours_shots, born_counts_get.
  pose proof (prob_zero_bounds (gates e)) as [Hp0 Hp1].
  set (p := prob_zero (gates e)) in *.
  assert (Hn : 0 < INR (S k)) by (apply lt_0_INR; lia).
  destruct (floor_nat_bounds (INR (S k) * p)) as [H1 H2]; [nra |].
  set (z := INR (floor_nat (INR (S k) * p))) in *.
  assert (Hi : 0 < / INR (S k)) by now apply Rinv_0_lt_compat.
  replace (z / INR (S k) - p) with ((z - INR (S k) * p) * / INR (S k))
    by (field; lra).
  apply Rabs_le. split.
  - apply (Rmult_le_reg_r (INR (S k))); [exact Hn |].
    rewrite Rmult_assoc, Rinv_l by lra.
    replace (- / INR (S k) * INR (S k)) with (- 1) by (field; lra). lra.
  - apply (Rmult_le_reg_r (INR (S k))); [exact Hn |].
    rewrite Rmult_assoc, !Rinv_l by lra. lra.
Qed.

Lemma born_backend_samples : samples_born_rule born_backend.
Proof.
  intros j e eps Heps.
  destruct (archimed_cor1 eps Heps) as (N & HN & HNpos).
  exists N. intros k Hk. unfold Rdist.
  eapply Rle_lt_trans; [apply born_fraction_close |].
  eapply Rle_lt_trans; [| exact HN].
  apply Rinv_le_contravar; [apply lt_0_INR; lia | apply le_INR; lia].
Qed.

Lemma simulate_polynomial_one {X Circ : Type} (backend : Backend Circ)
    (circuit_function : X -> result Circ) (x : X) (c : Circ)
    (num_shots : nat) (w : World) :
  circuit_function x = Ok c ->
  honours_shots backend ->
  (0 < num_shots)%nat ->
  simulate_polynomial backend circuit_function [x] num_shots w
  = (Ok [fraction_zero (execute backend (next_job w) c num_shots)],
     mkWorld (S (next_job w))
             (log w ++ [Submit (next_job w); Await (next_job w)])).
Proof.
  intros Hc Hb Hpos.
  unfold simulate_polynomial, bind; cbn [submit_jobs].
  unfold bind, lift. rewrite Hc. unfold backend_run, ret.
  cbn [collect_jobs]. unfold bind, job_probability, bind, job_result, lift.
  cbn [job_id job_circuit job_shots next_job log].
  rewrite probability_of_ok by (rewrite Hb; exact Hpos).
  unfold ret. cbn. now rewrite <- app_assoc.
Qed.

Lemma prob_zero_WGate_half :
  prob_zero [rx (-2 * acos (1 / 2))] = (cos (acos (1 / 2))) ^ 2.
Proof.
  unfold prob_zero. rewrite Operator_cons.
  unfold Operator; cbn [fold_left]. rewrite Mmult_I2_l.
  unfold gate_matrix; cbn [m00].
  replace (-2 * acos (1 / 2) / 2) with (- acos (1 / 2)) by field.
  rewrite cos_neg. Csimpl. ring.
Qed.

(** ** C3: the squared magnitude is the probability of reading 0 *)

(** C3.  For a non-empty phase sequence and [x] in [-1, 1], the squared
    magnitude of the top-left entry of the matrix of [qsp_polynomial] is the
    Born probability of the outcome 0 of the circuit of [qsp_circuit]; on a
    backend that answers every job in full and samples that probability
    faithfully, the estimate returned by [simulate_polynomial] for [x] tends
    to it as the number of shots grows.  A single [WGate(0.5)] reads 0 with
    probability [cos(acos 0.5)^2 = 0.25]. *)
Theorem squared_magnitude_is_probability (backend : Backend Experiment)
    (phases : list R) (x : R) (w : World) :
  phases <> [] -> -1 <= x <= 1 ->
  honours_shots backend -> samples_born_rule backend ->
  (exists (U : Matrix) (circ : QuantumCircuit) (estimate : nat -> R),
     qsp_polynomial x phases = Ok (U, m00 U, m01 U) /\
     qsp_circuit x phases = Ok circ /\
     Cnorm2 (m00 U) = prob_zero circ /\
     (forall k : nat, exists w' : World,
        simulate_polynomial backend (experiment_circuit phases) [x] (S k) w
        = (Ok [estimate k], w')) /\
     Un_cv estimate (Cnorm2 (m00 U))) /\
  (exists wg : QuantumCircuit,
     WGate (1 / 2) = Ok wg /\
     prob_zero wg = (cos (acos (1 / 2))) ^ 2 /\
     prob_zero wg = 1 / 4).
Proof.
  intros Hne Hx Hb Hs. split.
  - destruct phases as [| phi0 rest]; [contradiction |].
    set (phases := phi0 :: rest) in *.
    set (circ := Spec.buildCircuit phases x).
    assert (Hc : qsp_circuit x phases = Ok circ) by now apply qsp_circuit_ok.
    assert (He : experiment_circuit phases x = Ok (transpile (measure_all circ)))
      by (unfold experiment_circuit; now rewrite Hc).
    exists (fold_left (qsp_step x) rest (expected_s phi0)), circ,
      (fun k => fraction_zero
         (execute backend (next_job w) (transpile (measure_all circ)) (S k))).
    split; [apply qsp_polynomial_ok |].
    split; [exact Hc |].
    split; [| split].
    + unfold prob_zero, circ, Spec.buildCircuit, phases.
      now rewrite (Operator_gates_of x phi0 rest Hx).
    + intros k. eexists.
      apply (simulate_polynomial_one backend _ x _ (S k) w He Hb). lia.
    + replace (Cnorm2 (m00 (fold_left (qsp_step x) rest (expected_s phi0))))
        with (prob_zero (gates (transpile (measure_all circ)))).
      * apply Hs.
      * unfold prob_zero, transpile, measure_all, circ, Spec.buildCircuit, phases.
        cbn [gates]. now rewrite (Operator_gates_of x phi0 rest Hx).
  - exists [rx (-2 * acos (1 / 2))]. split; [| split].
    + unfold WGate. rewrite math_acos_ok by lra. reflexivity.
    + apply prob_zero_WGate_half.
    + rewrite prob_zero_WGate_half, cos_acos by lra. field.
Qed.

Lemma squared_magnitude_is_probability_witness :
  (exists (U : Matrix) (circ : QuantumCircuit) (estimate : nat -> R),
     qsp_polynomial (1 / 2) [1 / 10; 1 / 5; 3 / 10; 2 / 5] = Ok (U, m00 U, m01 U) /\
     qsp_circuit (1 / 2) [1 / 10; 1 / 5; 3 / 10; 2 / 5] = Ok circ /\
     Cnorm2 (m00 U) = prob_zero circ /\
     (forall k : nat, exists w' : World,
        simulate_polynomial born_backend
          (experiment_circuit [1 / 10; 1 / 5; 3 / 10; 2 / 5]) [1 / 2] (S k)
          (mkWorld 0 [])
        = (Ok [estimate k], w')) /\
     Un_cv estimate (Cnorm2 (m00 U))) /\
  (exists wg : QuantumCircuit,
     WGate (1 / 2) = Ok wg /\
     prob_zero wg = (cos (acos (1 / 2))) ^ 2 /\
     prob_zero wg = 1 / 4).
Proof.
  apply (squared_magnitude_is_probability born_backend
           [1 / 10; 1 / 5; 3 / 10; 2 / 5] (1 / 2) (mkWorld 0 [])).
  - discriminate.
  - lra.
  - apply born_honours_shots.
  - apply born_backend_samples.
Defined.

(** * Further properties of the notebook's code *)

(** ** The self-test cells *)

Lemma Cnorm2_nonneg (z : C) : 0 <= Cnorm2 z.
Proof. unfold Cnorm2. nra. Qed.

Lemma isclose_refl (a : C) : isclose a a = true.
Proof.
  unfold isclose.
  destruct (Rle_dec (Cmod (a - a)%C) (1 / 10 ^ 8 + 1 / 10 ^ 5 * Cmod a))
    as [_ | Hn]; [reflexivity | exfalso; apply Hn].
  replace (a - a)%C with C0 by ring.
  unfold Cmod at 1. replace (Cnorm2 C0) with 0 by (unfold Cnorm2, C0; simpl; ring).
  rewrite sqrt_0.
  pose proof (sqrt_pos (Cnorm2 a)) as Hs. unfold Cmod. nra.
Qed.

Lemma allclose_refl (A : Matrix) : allclose A A = true.
Proof. unfold allclose. now rewrite !isclose_refl. Qed.

Lemma Operator_single (g : Gate) : Operator [g] = gate_matrix g.
Proof. unfold Operator; simpl. apply Mmult_I2_r. Qed.

(** The cell that checks [WGate] and [SGate] against [expected_w] and
    [expected_s] passes both assertions in every pass of its loop, whatever
    numbers in [0, 1] [random.rand()] draws. *)
Theorem gate_self_test_passes (draws : list (R * R)) :
  Forall (fun d => 0 <= fst d <= 1) draws ->
  gate_self_test draws = Ok tt.
Proof.
  induction 1 as [| [r1 r2] draws Hr _ IH]; [reflexivity |].
  simpl in Hr. cbn [gate_self_test].
  assert (Hx : -1 <= r1 * 2 - 1 <= 1) by lra.
  unfold WGate. rewrite (math_acos_ok _ Hx). cbn [rbind].
  unfold append, SGate, evalf. cbn [app].
  rewrite !Operator_single, (gate_matrix_rx _ Hx), gate_matrix_rz.
  rewrite !allclose_refl. cbn [py_assert rbind]. exact IH.
Qed.

Lemma gate_self_test_passes_witness :
  gate_self_test [(0, 1 / 2); (1 / 4, 0); (1, 3 / 4)] = Ok tt.
Proof.
  apply (gate_self_test_passes [(0, 1 / 2); (1 / 4, 0); (1, 3 / 4)]).
  repeat constructor; simpl; lra.
Defined.

(** The cell that compares the circuit of [qsp_circuit] with the matrix [U]
    of [qsp_polynomial] passes its assertion in every pass, for every
    non-empty phase sequence and whatever numbers in [0, 1] are drawn. *)
Theorem qsp_self_test_passes (U : R -> Matrix) (phases : list R)
    (draws : list R) :
  phases <> [] ->
  (forall x, qsp_polynomial x phases = Ok (U x, m00 (U x), m01 (U x))) ->
  Forall (fun r => 0 <= r <= 1) draws ->
  qsp_self_test U phases draws = Ok tt.
Proof.
  intros Hne HU. induction 1 as [| r draws Hr _ IH]; [reflexivity |].
  cbn [qsp_self_test].
  assert (Hx : -1 <= r * 2 - 1 <= 1) by lra.
  rewrite (qsp_circuit_ok _ _ Hne Hx). cbn [rbind]. unfold evalf.
  destruct phases as [| phi0 rest]; [contradiction |].
  specialize (HU (r * 2 - 1)). rewrite qsp_polynomial_ok in HU.
  cbv zeta in HU. injection HU as HU _ _.
  unfold Spec.buildCircuit. rewrite (Operator_gates_of _ phi0 rest Hx), HU.
  rewrite allclose_refl. cbn [py_assert rbind]. exact IH.
Qed.

Lemma qsp_self_test_passes_witness :
  qsp_self_test (fun x => fold_left (qsp_step x) [1 / 5] (expected_s (1 / 10)))
                [1 / 10; 1 / 5] [0; 1 / 2; 1] = Ok tt.
Proof.
  apply (qsp_self_test_passes _ [1 / 10; 1 / 5] [0; 1 / 2; 1]).
  - discriminate.
  - intros x. reflexivity.
  - repeat constructor; lra.
Defined.

(** ** When the builders raise *)

Lemma math_acos_out (x : R) : ~ (-1 <= x <= 1) -> math_acos x = Raise ValueError.
Proof.
  intros Hx. unfold math_acos.
  destruct (Rle_dec (-1) x); [| reflexivity].
  destruct (Rle_dec x 1); [| reflexivity].
  exfalso. apply Hx. now split.
Qed.

Lemma qsp_circuit_outside (x : R) (phases : list R) :
  ~ (-1 <= x <= 1) ->
  qsp_circuit x phases = Raise ValueError <-> (2 <= length phases)%nat.
Proof.
  intros Hx. unfold qsp_circuit, float. rewrite map_id.
  pose proof (length_rev phases) as Hl.
  destruct (rev phases) as [| last [| phi others]]; simpl in Hl.
  - split; [discriminate | lia].
  - split; [discriminate | lia].
  - cbn [qsp_circuit_loop]. unfold WGate. rewrite (math_acos_out x Hx).
    split; [intros _; lia | reflexivity].
Qed.

(** [qsp_circuit] raises [ValueError] exactly when there are at least two
    phases and [x] lies outside [-1, 1]; with a single phase it accepts every
    [x], since no [WGate] is built. *)
Theorem qsp_circuit_value_error (x : R) (phases : list R) :
  qsp_circuit x phases = Raise ValueError
  <-> (2 <= length phases)%nat /\ ~ (-1 <= x <= 1).
Proof.
  destruct (Rle_dec (-1) x) as [H1 | H1];
    [destruct (Rle_dec x 1) as [H2 | H2] |].
  - destruct phases as [| phi0 rest].
    + split; [discriminate | simpl; lia].
    + rewrite qsp_circuit_ok by (try discriminate; lra).
      split; [discriminate | intros [_ Hn]; exfalso; apply Hn; lra].
  - assert (Hx : ~ (-1 <= x <= 1)) by lra.
    rewrite (qsp_circuit_outside x phases Hx). tauto.
  - assert (Hx : ~ (-1 <= x <= 1)) by lra.
    rewrite (qsp_circuit_outside x phases Hx). tauto.
Qed.

Lemma qsp_circuit_value_error_witness :
  qsp_circuit 2 [1 / 10; 1 / 5] = Raise ValueError.
Proof.
  apply (qsp_circuit_value_error 2 [1 / 10; 1 / 5]). split; [simpl; lia | lra].
Defined.

(** ** The signal matrix outside its domain *)

Lemma expected_w_outside (x : R) :
  ~ (-1 <= x <= 1) ->
  expected_w x = mkMatrix (RtoC x) (RtoC (- sqrt (x * x - 1)))
                          (RtoC (- sqrt (x * x - 1))) (RtoC x).
Proof.
  intros Hx. unfold expected_w, sp_sqrt.
  destruct (Rle_dec 0 (1 - x ^ 2)) as [H | H].
  - exfalso. apply Hx. nra.
  - replace (- (1 - x ^ 2)) with (x * x - 1) by ring. f_equal; Ceq.
Qed.

(** [expected_w(x)] is unitary exactly when [x] lies in [-1, 1]; outside,
    [sp.sqrt(1 - x**2)] is imaginary and the matrix is real with a top-left
    entry of [W W^dagger] equal to [2 x^2 - 1 > 1]. *)
Theorem expected_w_unitary_iff (x : R) :
  unitary (expected_w x) <-> -1 <= x <= 1.
Proof.
  split.
  - intros HU. destruct (Rle_dec (-1) x) as [H1 | H1];
      [destruct (Rle_dec x 1) as [H2 | H2]; [now split |] |].
    + exfalso. assert (Hx : ~ (-1 <= x <= 1)) by lra.
      rewrite (expected_w_outside x Hx) in HU.
      assert (Ht : sqrt (x * x - 1) * sqrt (x * x - 1) = x * x - 1)
        by (apply sqrt_sqrt; nra).
      unfold unitary, adjoint, Mmult, I2 in HU. Csimpl.
      injection HU as HU _. nra.
    + exfalso. assert (Hx : ~ (-1 <= x <= 1)) by lra.
      rewrite (expected_w_outside x Hx) in HU.
      assert (Ht : sqrt (x * x - 1) * sqrt (x * x - 1) = x * x - 1)
        by (apply sqrt_sqrt; nra).
      unfold unitary, adjoint, Mmult, I2 in HU. Csimpl.
      injection HU as HU _. nra.
  - intros Hx. rewrite (expected_w_spec x Hx). now apply unitary_W.
Qed.

Lemma expected_w_unitary_iff_witness : unitary (expected_w (1 / 2)).
Proof. apply (expected_w_unitary_iff (1 / 2)). lra. Defined.

(** ** Determinant *)

Lemma Mdet_mult (A B : Matrix) : Mdet (Mmult A B) = (Mdet A * Mdet B)%C.
Proof. unfold Mdet, Mmult; simpl. ring. Qed.

Lemma Mdet_expected_s (phi : R) : Mdet (expected_s phi) = C1.
Proof.
  rewrite expected_s_spec. unfold Mdet, Spec.S; simpl.
  pose proof (cis_mult_conj phi) as H. ring [H].
Qed.

Lemma Mdet_expected_w (x : R) : Mdet (expected_w x) = C1.
Proof.
  unfold Mdet, expected_w; cbn [m00 m01 m10 m11].
  pose proof (sp_sqrt_sq (1 - x ^ 2)) as Hs.
  rewrite RtoC_one_minus_sq in Hs. ring [Hs Ci_sq].
Qed.

Lemma Mdet_fold (x : R) (rest : list R) (A : Matrix) :
  Mdet (fold_left (qsp_step x) rest A) = Mdet A.
Proof.
  revert A. induction rest as [| phi rest IH]; intros A; simpl.
  - reflexivity.
  - rewrite IH. unfold qsp_step.
    rewrite !Mdet_mult, Mdet_expected_w, Mdet_expected_s. ring.
Qed.

(** For a non-empty phase sequence the matrix returned by [qsp_polynomial]
    has determinant 1 at every real [x], inside [-1, 1] or not. *)
Theorem qsp_polynomial_det (phases : list R) (x : R) :
  phases <> [] ->
  exists U : Matrix,
    qsp_polynomial x phases = Ok (U, m00 U, m01 U) /\ Mdet U = C1.
Proof.
  intros Hne. destruct phases as [| phi0 rest]; [contradiction |].
  exists (fold_left (qsp_step x) rest (expected_s phi0)).
  split; [apply qsp_polynomial_ok |].
  rewrite Mdet_fold. apply Mdet_expected_s.
Qed.

Lemma qsp_polynomial_det_witness :
  exists U : Matrix,
    qsp_polynomial 3 [1 / 10; 1 / 5; 3 / 10] = Ok (U, m00 U, m01 U) /\ Mdet U = C1.
Proof. apply (qsp_polynomial_det [1 / 10; 1 / 5; 3 / 10] 3). discriminate. Defined.

(** ** Parity in [x] *)

Lemma expected_w_opp (x : R) :
  expected_w (- x) = Mscale (RtoC (-1)) (flip_offdiag (expected_w x)).
Proof.
  unfold expected_w, Mscale, flip_offdiag. cbn [m00 m01 m10 m11].
  replace (1 - (- x) ^ 2) with (1 - x ^ 2) by ring.
  destruct (sp_sqrt (1 - x ^ 2)) as [a b]. f_equal; Ceq.
Qed.

Lemma flip_offdiag_mult (A B : Matrix) :
  Mmult (flip_offdiag A) (flip_offdiag B) = flip_offdiag (Mmult A B).
Proof. unfold flip_offdiag, Mmult; simpl. f_equal; ring. Qed.

Lemma flip_offdiag_S (phi : R) : flip_offdiag (expected_s phi) = expected_s phi.
Proof. unfold flip_offdiag, expected_s; simpl. f_equal; Ceq. Qed.

Lemma qsp_step_opp (x sigma phi : R) (A : Matrix) :
  qsp_step (- x) (Mscale (RtoC sigma) (flip_offdiag A)) phi
  = Mscale (RtoC (sigma * -1)) (flip_offdiag (qsp_step x A phi)).
Proof.
  unfold qsp_step. rewrite expected_w_opp.
  rewrite <- (flip_offdiag_S phi) at 1.
  repeat first [rewrite Mmult_Mscale_l | rewrite Mmult_Mscale_r].
  rewrite !flip_offdiag_mult, Mscale_Mscale, RtoC_mult. reflexivity.
Qed.

Lemma fold_qsp_step_opp (x : R) (rest : list R) (sigma : R) (A : Matrix) :
  fold_left (qsp_step (- x)) rest (Mscale (RtoC sigma) (flip_offdiag A))
  = Mscale (RtoC (sigma * (-1) ^ length rest))
           (flip_offdiag (fold_left (qsp_step x) rest A)).
Proof.
  revert sigma A. induction rest as [| phi rest IH]; intros sigma A; simpl.
  - now rewrite Rmult_1_r.
  - rewrite qsp_step_opp, IH. do 2 f_equal. ring.
Qed.

Lemma Cnorm2_scale_sign (n : nat) (z : C) :
  Cnorm2 (RtoC ((-1) ^ n) * z)%C = Cnorm2 z.
Proof.
  pose proof (pow_m1_sq n) as H. destruct z as [a b]. Csimpl.
  set (s := (-1) ^ n) in *.
  replace ((s * a - 0 * b) * (s * a - 0 * b) + (s * b + 0 * a) * (s * b + 0 * a))
    with (s * s * (a * a + b * b)) by ring.
  rewrite H. ring.
Qed.

(** Changing [x] to [-x] multiplies the top-left entry returned by
    [qsp_polynomial] by [(-1)^d] and the top-right entry by [(-1)^(d+1)],
    where [d = len(phases) - 1]; the curve [|P(x)|^2] of [poly_abs] is
    therefore symmetric about [x = 0]. *)
Theorem qsp_polynomial_parity (phases : list R) (x : R) :
  phases <> [] ->
  let d := (length phases - 1)%nat in
  exists (U V : Matrix),
    qsp_polynomial x phases = Ok (U, m00 U, m01 U) /\
    qsp_polynomial (- x) phases = Ok (V, m00 V, m01 V) /\
    m00 V = (RtoC ((-1) ^ d) * m00 U)%C /\
    m01 V = (RtoC ((-1) ^ (d + 1)) * m01 U)%C /\
    poly_abs phases (- x) = poly_abs phases x.
Proof.
  intros Hne d. destruct phases as [| phi0 rest]; [contradiction |].
  assert (Hd : d = length rest) by (subst d; simpl; lia).
  set (U := fold_left (qsp_step x) rest (expected_s phi0)).
  assert (HV : fold_left (qsp_step (- x)) rest (expected_s phi0)
               = Mscale (RtoC ((-1) ^ d)) (flip_offdiag U)).
  { rewrite <- (flip_offdiag_S phi0) at 1.
    rewrite <- (Mscale_1 (flip_offdiag (expected_s phi0))).
    rewrite fold_qsp_step_opp, Rmult_1_l, Hd. reflexivity. }
  exists U, (Mscale (RtoC ((-1) ^ d)) (flip_offdiag U)).
  split; [apply qsp_polynomial_ok |].
  split; [rewrite qsp_polynomial_ok, HV; reflexivity |].
  split; [reflexivity |].
  split.
  - unfold Mscale, flip_offdiag; cbn [m00 m01 m10 m11].
    rewrite Nat.add_1_r. cbn [pow]. rewrite <- RtoC_mult.
    assert (Hm : RtoC (-1) = (- C1)%C) by Ceq. rewrite Hm. ring.
  - unfold poly_abs. rewrite !qsp_polynomial_ok, HV. cbn [rbind]. fold U.
    cbv zeta. f_equal. unfold Mscale, flip_offdiag; cbn [m00].
    apply Cnorm2_scale_sign.
Qed.

Lemma qsp_polynomial_parity_witness :
  let phases := [1 / 10; 1 / 5; 3 / 10; 2 / 5] in
  let d := (length phases - 1)%nat in
  exists (U V : Matrix),
    qsp_polynomial (1 / 3) phases = Ok (U, m00 U, m01 U) /\
    qsp_polynomial (- (1 / 3)) phases = Ok (V, m00 V, m01 V) /\
    m00 V = (RtoC ((-1) ^ d) * m00 U)%C /\
    m01 V = (RtoC ((-1) ^ (d + 1)) * m01 U)%C /\
    poly_abs phases (- (1 / 3)) = poly_abs phases (1 / 3).
Proof.
  apply (qsp_polynomial_parity [1 / 10; 1 / 5; 3 / 10; 2 / 5] (1 / 3)). discriminate.
Defined.

(** ** The formula curve and the sweep points *)

(** For a non-empty phase sequence and [x] in [-1, 1] the value
    [|P(x)|^2] of [poly_abs] plotted as "formula" lies in [0, 1]. *)
Theorem poly_abs_bounds (phases : list R) (x : R) :
  phases <> [] -> -1 <= x <= 1 ->
  exists y : R, poly_abs phases x = Ok y /\ 0 <= y <= 1.
Proof.
  intros Hne Hx. destruct phases as [| phi0 rest]; [contradiction |].
  unfold poly_abs. rewrite qsp_polynomial_ok. cbv zeta. cbn [rbind].
  eexists. split; [reflexivity |]. split.
  - apply Cnorm2_nonneg.
  - apply unitary_m00_le_1, unitary_fold; [exact Hx |].
    rewrite expected_s_spec. apply unitary_S.
Qed.

Lemma poly_abs_bounds_witness :
  exists y : R,
    poly_abs [1 / 10; 1 / 5; 3 / 10; 2 / 5] (1 / 2) = Ok y /\ 0 <= y <= 1.
Proof.
  apply (poly_abs_bounds [1 / 10; 1 / 5; 3 / 10; 2 / 5] (1 / 2)); [discriminate | lra].
Defined.

Lemma length_linspace (a b : R) (n : nat) : length (linspace a b n) = n.
Proof. unfold linspace. now rewrite length_map, length_seq. Qed.

Lemma linspace_lookup (a b : R) (n i : nat) :
  (i < n)%nat ->
  linspace a b n !! i = Some (a + INR i * ((b - a) / INR (n - 1))).
Proof.
  intros Hi. unfold linspace.
  change (map ?f ?l) with (f <$> l).
  rewrite list_lookup_fmap, lookup_seq_lt by exact Hi. reflexivity.
Qed.

Lemma length_slice_1_m1 {A : Type} (l : list A) :
  length (slice_1_m1 l) = (length l - 2)%nat.
Proof. unfold slice_1_m1. rewrite length_take, length_drop. lia. Qed.

Lemma slice_1_m1_lookup {A : Type} (l : list A) (k : nat) (y : A) :
  slice_1_m1 l !! k = Some y ->
  l !! (S k) = Some y /\ (S k < length l - 1)%nat.
Proof.
  unfold slice_1_m1. intros H.
  apply lookup_take_Some in H as [H Hk]. rewrite lookup_drop in H.
  split; [exact H | lia].
Qed.

Lemma sweep_points_lookup (n k : nat) (y : R) :
  sweep_points n !! k = Some y ->
  y = -1 + INR (S k) * (2 / INR (n - 1)) /\ (S k < n - 1)%nat.
Proof.
  intros H. unfold sweep_points in H.
  apply slice_1_m1_lookup in H as [H Hlt]. rewrite length_linspace in Hlt.
  rewrite linspace_lookup in H by lia. injection H as <-.
  split; [| exact Hlt]. f_equal. f_equal. f_equal. lra.
Qed.

Lemma sweep_points_in_domain (n : nat) :
  Forall (fun y => -1 < y < 1) (sweep_points n).
Proof.
  apply Forall_lookup. intros k y H.
  destruct (sweep_points_lookup n k y H) as [-> Hlt].
  assert (H0 : 0 < INR (S k)) by (apply lt_0_INR; lia).
  assert (H1 : INR (S k) < INR (n - 1)) by (apply lt_INR; exact Hlt).
  assert (Hn : 0 < INR (n - 1)) by lra.
  assert (Hq : 0 < INR (S k) * (2 / INR (n - 1)) < 2).
  { split.
    - apply Rmult_lt_0_compat; [exact H0 |].
      apply Rdiv_lt_0_compat; lra.
    - apply (Rmult_lt_reg_r (INR (n - 1))); [exact Hn |].
      replace (INR (S k) * (2 / INR (n - 1)) * INR (n - 1))
        with (2 * INR (S k)) by (field; lra).
      lra. }
  lra.
Qed.

Lemma length_sweep_points (n : nat) : length (sweep_points n) = (n - 2)%nat.
Proof. unfold sweep_points. now rewrite length_slice_1_m1, length_linspace. Qed.

(** The sweep points [np.linspace(-1, 1, n)[1:-1]] are [n - 2] in number
    and all lie strictly between -1 and 1: the k-th one is
    [-1 + 2 (k + 1) / (n - 1)]. *)
Theorem sweep_points_inside (n : nat) :
  length (sweep_points n) = (n - 2)%nat /\
  (forall (k : nat) (y : R), sweep_points n !! k = Some y ->
     y = -1 + INR (S k) * (2 / INR (n - 1))) /\
  Forall (fun y => -1 < y < 1) (sweep_points n).
Proof.
  split; [apply length_sweep_points |]. split.
  - intros k y H. now destruct (sweep_points_lookup n k y H).
  - apply sweep_points_in_domain.
Qed.

(** ** More on the sweep *)

Lemma submit_jobs_run {X Circ : Type} (circuit_function : X -> result Circ)
    (xs : list X) (circuits : list Circ) (num_shots : nat) (w : World) :
  Forall2 (fun x c => circuit_function x = Ok c) xs circuits ->
  submit_jobs circuit_function xs num_shots w
  = (Ok (jobs_from (next_job w) circuits num_shots),
     mkWorld (next_job w + length xs)
             (log w ++ map Submit (seq (next_job w) (length xs)))).
Proof.
  intros H. revert w. induction H as [| x c xs cs Hc _ IH]; intros w.
  - simpl. unfold ret. destruct w as [n l]; simpl.
    now rewrite Nat.add_0_r, app_nil_r.
  - cbn [submit_jobs]. unfold bind at 1. unfold lift at 1. rewrite Hc.
    unfold bind at 1. unfold backend_run at 1.
    unfold bind at 1. rewrite IH. unfold ret. cbn.
    rewrite <- app_assoc. repeat f_equal. lia.
Qed.

Lemma circuits_exist {X Circ : Type} (circuit_function : X -> result Circ)
    (xs : list X) :
  Forall (fun x => exists c, circuit_function x = Ok c) xs ->
  exists circuits, Forall2 (fun x c => circuit_function x = Ok c) xs circuits.
Proof.
  induction 1 as [| x xs [c Hc] _ [cs IH]].
  - exists []. constructor.
  - exists (c :: cs). now constructor.
Qed.

Lemma jobs_answered {Circ : Type} (backend : Backend Circ)
    (circuits : list Circ) (start num_shots : nat) :
  honours_shots backend -> (0 < num_shots)%nat ->
  Forall (fun job => (0 < counts_shots
            (execute backend (job_id job) (job_circuit job) (job_shots job)))%nat)
         (jobs_from start circuits num_shots).
Proof.
  intros Hb Hpos. eapply Forall_impl; [apply jobs_from_shots |].
  intros job Hj. cbn beta in Hj. rewrite Hb, Hj. exact Hpos.
Qed.

Lemma simulate_polynomial_run {X Circ : Type} (backend : Backend Circ)
    (circuit_function : X -> result Circ) (xs : list X) (circuits : list Circ)
    (num_shots : nat) (w : World) :
  honours_shots backend -> (0 < num_shots)%nat ->
  Forall2 (fun x c => circuit_function x = Ok c) xs circuits ->
  simulate_polynomial backend circuit_function xs num_shots w
  = (Ok (map (fun job => fraction_zero
            (execute backend (job_id job) (job_circuit job) (job_shots job)))
          (jobs_from (next_job w) circuits num_shots)),
     mkWorld (next_job w + length xs)
             (log w ++ map Submit (seq (next_job w) (length xs))
                    ++ map Await (seq (next_job w) (length xs)))).
Proof.
  intros Hb Hpos Hcs. unfold simulate_polynomial, bind.
  rewrite (submit_jobs_run _ _ _ _ _ Hcs).
  rewrite collect_jobs_ok by now apply jobs_answered.
  cbn [app next_job log]. rewrite <- app_assoc. do 3 f_equal.
  rewrite <- (map_map job_id Await), jobs_from_ids.
  now rewrite (Forall2_length _ _ _ Hcs).
Qed.

Lemma submit_jobs_fail {X Circ : Type} (circuit_function : X -> result Circ)
    (xs1 xs2 : list X) (x : X) (e : PyError) (num_shots : nat) (w : World) :
  Forall (fun x => exists c, circuit_function x = Ok c) xs1 ->
  circuit_function x = Raise e ->
  submit_jobs circuit_function (xs1 ++ x :: xs2) num_shots w
  = (Raise e,
     mkWorld (next_job w + length xs1)
             (log w ++ map Submit (seq (next_job w) (length xs1)))).
Proof.
  intros H He. revert w. induction H as [| y ys [c Hc] _ IH]; intros w.
  - cbn [app submit_jobs]. unfold bind, lift. rewrite He.
    destruct w as [n l]; simpl. now rewrite Nat.add_0_r, app_nil_r.
  - cbn [app submit_jobs]. unfold bind at 1. unfold lift at 1. rewrite Hc.
    unfold bind at 1. unfold backend_run at 1.
    unfold bind at 1. rewrite IH. cbn.
    rewrite <- app_assoc. repeat f_equal. lia.
Qed.

(** If [circuit_function] raises at some [x] of the sweep, the exception
    leaves [simulate_polynomial]; by then the jobs of the earlier values have
    been submitted, in order, and none of them has been waited for. *)
Theorem simulate_polynomial_circuit_failure {X Circ : Type}
    (backend : Backend Circ) (circuit_function : X -> result Circ)
    (xs1 xs2 : list X) (x : X) (e : PyError) (num_shots : nat) (w : World) :
  Forall (fun x => exists c, circuit_function x = Ok c) xs1 ->
  circuit_function x = Raise e ->
  simulate_polynomial backend circuit_function (xs1 ++ x :: xs2) num_shots w
  = (Raise e,
     mkWorld (next_job w + length xs1)
             (log w ++ map Submit (seq (next_job w) (length xs1)))).
Proof.
  intros H He. unfold simulate_polynomial, bind.
  now rewrite (submit_jobs_fail _ _ _ _ _ _ _ H He).
Qed.

Lemma simulate_polynomial_circuit_failure_witness :
  simulate_polynomial all_zero_backend (experiment_circuit [1 / 10; 1 / 5])
                      ([0; 1 / 2] ++ 2 :: [1]) 100 (mkWorld 0 [])
  = (Raise ValueError,
     mkWorld (0 + length [0; 1 / 2])
             ([] ++ map Submit (seq 0 (length [0; 1 / 2])))).
Proof.
  apply (simulate_polynomial_circuit_failure all_zero_backend
           (experiment_circuit [1 / 10; 1 / 5]) [0; 1 / 2] [1] 2 ValueError
           100 (mkWorld 0 [])).
  - repeat constructor; unfold experiment_circuit;
      (rewrite qsp_circuit_ok; [simpl; eauto | discriminate | lra]).
  - unfold experiment_circuit.
    assert (E : qsp_circuit 2 [1 / 10; 1 / 5] = Raise ValueError).
    { unfold qsp_circuit, float. cbn [map rev app qsp_circuit_loop].
      unfold WGate. rewrite math_acos_out by lra. reflexivity. }
    now rewrite E.
Defined.

(** With [num_shots = 0] on a backend that answers with as many outcomes as
    shots, a sweep over a non-empty [xs] submits every job, waits for the
    first one and raises [ZeroDivisionError] at [counts.shots()]. *)
Theorem simulate_polynomial_zero_shots {X Circ : Type}
    (backend : Backend Circ) (circuit_function : X -> result Circ)
    (xs : list X) (w : World) :
  honours_shots backend ->
  Forall (fun x => exists c, circuit_function x = Ok c) xs ->
  xs <> [] ->
  simulate_polynomial backend circuit_function xs 0 w
  = (Raise ZeroDivisionError,
     mkWorld (next_job w + length xs)
             (log w ++ map Submit (seq (next_job w) (length xs))
                    ++ [Await (next_job w)])).
Proof.
  intros Hb Hxs Hne.
  destruct (circuits_exist _ _ Hxs) as [circuits Hcs].
  unfold simulate_polynomial, bind. rewrite (submit_jobs_run _ _ _ _ _ Hcs).
  destruct Hcs as [| x c xs cs _ _]; [contradiction |].
  cbn [jobs_from collect_jobs]. unfold bind, job_probability, bind, job_result, lift.
  cbn [job_id job_circuit job_shots next_job log].
  unfold probability_of. rewrite Hb. cbn [truediv].
  now rewrite <- app_assoc.
Qed.

Lemma simulate_polynomial_zero_shots_witness :
  simulate_polynomial all_zero_backend (experiment_circuit [1 / 10; 1 / 5])
                      [0; 1 / 2] 0 (mkWorld 0 [])
  = (Raise ZeroDivisionError,
     mkWorld (0 + length [0; 1 / 2])
             ([] ++ map Submit (seq 0 (length [0; 1 / 2])) ++ [Await 0%nat])).
Proof.
  apply (simulate_polynomial_zero_shots all_zero_backend
           (experiment_circuit [1 / 10; 1 / 5]) [0; 1 / 2] (mkWorld 0 [])).
  - apply all_zero_honours_shots.
  - repeat constructor; unfold experiment_circuit;
      (rewrite qsp_circuit_ok; [simpl; eauto | discriminate | lra]).
  - discriminate.
Defined.

Lemma submit_jobs_length {X Circ : Type} (circuit_function : X -> result Circ)
    (xs : list X) (num_shots : nat) (w w' : World) (jobs : list (Job Circ)) :
  submit_jobs circuit_function xs num_shots w = (Ok jobs, w') ->
  length jobs = length xs.
Proof.
  revert w w' jobs. induction xs as [| x xs IH]; intros w w' jobs H.
  - cbn in H. injection H as <- _. reflexivity.
  - cbn [submit_jobs] in H. unfold bind at 1 in H. unfold lift at 1 in H.
    destruct (circuit_function x) as [c | e]; [| discriminate].
    unfold bind at 1 in H. unfold backend_run at 1 in H.
    unfold bind at 1 in H.
    destruct (submit_jobs circuit_function xs num_shots _) as [[js | e] w1] eqn:E;
      [| discriminate].
    unfold ret in H. injection H as <- _. simpl. f_equal. eapply IH, E.
Qed.

Lemma collect_jobs_bounds {Circ : Type} (backend : Backend Circ)
    (jobs : list (Job Circ)) (ys zs : list R) (w w' : World) :
  collect_jobs backend jobs ys w = (Ok zs, w') ->
  exists ps : list R,
    zs = ys ++ ps /\ length ps = length jobs /\
    Forall (fun p => 0 <= p <= 1) ps.
Proof.
  revert ys w. induction jobs as [| job jobs IH]; intros ys w H.
  - cbn in H. injection H as <- _. exists []. rewrite app_nil_r. auto.
  - cbn [collect_jobs] in H. unfold bind at 1 in H.
    unfold job_probability, bind, job_result, lift in H.
    set (counts := execute backend (job_id job) (job_circuit job) (job_shots job)) in *.
    destruct (Nat.eq_dec (counts_shots counts) 0%nat) as [Hz | Hz].
    + unfold probability_of in H. rewrite Hz in H. discriminate.
    + assert (Hpos : (0 < counts_shots counts)%nat) by lia.
      rewrite (probability_of_ok counts Hpos) in H.
      destruct (IH _ _ H) as (ps & -> & Hlen & Hps).
      exists (fraction_zero counts :: ps). rewrite <- app_assoc.
      split; [reflexivity |]. split; [simpl; now f_equal |].
      constructor; [now apply fraction_zero_bounds | exact Hps].
Qed.

(** Whatever the backend answers and whatever the circuit function does,
    a list that [simulate_polynomial] returns has one entry per element of
    [xs] and every entry lies in [0, 1]. *)
Theorem simulate_polynomial_returns_probabilities {X Circ : Type}
    (backend : Backend Circ) (circuit_function : X -> result Circ)
    (xs : list X) (num_shots : nat) (w w' : World) (ys : list R) :
  simulate_polynomial backend circuit_function xs num_shots w = (Ok ys, w') ->
  length ys = length xs /\ Forall (fun y => 0 <= y <= 1) ys.
Proof.
  unfold simulate_polynomial, bind. intros H.
  destruct (submit_jobs circuit_function xs num_shots w) as [[jobs | e] w1] eqn:E;
    [| discriminate].
  apply submit_jobs_length in E.
  destruct (collect_jobs_bounds _ _ _ _ _ _ H) as (ps & -> & Hlen & Hps).
  cbn [app]. split; [congruence | exact Hps].
Qed.

Lemma simulate_polynomial_returns_probabilities_witness :
  length [fraction_zero (execute (@all_zero_backend unit) 0 tt 100)]
  = length [tt]
  /\ Forall (fun y => 0 <= y <= 1)
            [fraction_zero (execute (@all_zero_backend unit) 0 tt 100)].
Proof.
  apply (simulate_polynomial_returns_probabilities all_zero_backend
           (fun _ : unit => Ok tt) [tt] 100 (mkWorld 0 [])
           (mkWorld 1 ([] ++ [Submit 0%nat; Await 0%nat]))).
  apply (simulate_polynomial_one all_zero_backend (fun _ : unit => Ok tt) tt tt
           100 (mkWorld 0 [])).
  - reflexivity.
  - apply all_zero_honours_shots.
  - lia.
Defined.

Lemma jobs_from_app {Circ : Type} (cs1 cs2 : list Circ) (start n : nat) :
  jobs_from start (cs1 ++ cs2) n
  = jobs_from start cs1 n ++ jobs_from (start + length cs1) cs2 n.
Proof.
  revert start. induction cs1 as [| c cs1 IH]; intros start; simpl.
  - now rewrite Nat.add_0_r.
  - rewrite IH. do 3 f_equal. lia.
Qed.

(** Sweeping [xs1 ++ xs2] in one call returns the values of a sweep over
    [xs1] followed by those of a sweep over [xs2] run next: the jobs carry
    the same numbers either way.  Only the backend's log differs, and only
    in its order: the two calls leave submissions and waits for [xs1], then
    submissions and waits for [xs2]; the single call leaves all submissions,
    then all waits. *)
Theorem simulate_polynomial_app {X Circ : Type} (backend : Backend Circ)
    (circuit_function : X -> result Circ) (xs1 xs2 : list X)
    (num_shots : nat) (w : World) :
  (0 < num_shots)%nat ->
  honours_shots backend ->
  Forall (fun x => exists c, circuit_function x = Ok c) (xs1 ++ xs2) ->
  let n := next_job w in
  let ids1 := seq n (length xs1) in
  let ids2 := seq (n + length xs1) (length xs2) in
  exists (ys1 ys2 : list R) (w1 w2 w12 : World),
    simulate_polynomial backend circuit_function xs1 num_shots w = (Ok ys1, w1) /\
    simulate_polynomial backend circuit_function xs2 num_shots w1 = (Ok ys2, w2) /\
    simulate_polynomial backend circuit_function (xs1 ++ xs2) num_shots w
    = (Ok (ys1 ++ ys2), w12) /\
    next_job w12 = next_job w2 /\
    log w2 = log w ++ map Submit ids1 ++ map Await ids1
                   ++ map Submit ids2 ++ map Await ids2 /\
    log w12 = log w ++ map Submit ids1 ++ map Submit ids2
                    ++ map Await ids1 ++ map Await ids2.
Proof.
  intros Hpos Hb Hxs n ids1 ids2. apply Forall_app in Hxs as [H1 H2].
  destruct (circuits_exist _ _ H1) as [cs1 Hcs1].
  destruct (circuits_exist _ _ H2) as [cs2 Hcs2].
  assert (Hcs : Forall2 (fun x c => circuit_function x = Ok c)
                        (xs1 ++ xs2) (cs1 ++ cs2))
    by (apply Forall2_app; assumption).
  do 5 eexists.
  split; [apply (simulate_polynomial_run _ _ _ _ _ _ Hb Hpos Hcs1) |].
  split; [apply (simulate_polynomial_run _ _ _ _ _ _ Hb Hpos Hcs2) |].
  split; [| split; [| split]].
  - rewrite (simulate_polynomial_run _ _ _ _ _ _ Hb Hpos Hcs).
    rewrite jobs_from_app, map_app. cbn [next_job].
    rewrite (Forall2_length _ _ _ Hcs1). reflexivity.
  - cbn [next_job]. rewrite length_app. lia.
  - cbn [next_job log]. subst n ids1 ids2. now rewrite <- !app_assoc.
  - cbn [next_job log]. subst n ids1 ids2.
    rewrite length_app, seq_app, !map_app. now rewrite <- !app_assoc.
Qed.

Lemma simulate_polynomial_app_witness :
  let w := mkWorld 0 [] in
  let n := next_job w in
  let ids1 := seq n (length [0]) in
  let ids2 := seq (n + length [0]) (length [1 / 2; 1]) in
  exists (ys1 ys2 : list R) (w1 w2 w12 : World),
    simulate_polynomial all_zero_backend (experiment_circuit [1 / 10; 1 / 5])
                        [0] 100 w = (Ok ys1, w1) /\
    simulate_polynomial all_zero_backend (experiment_circuit [1 / 10; 1 / 5])
                        [1 / 2; 1] 100 w1 = (Ok ys2, w2) /\
    simulate_polynomial all_zero_backend (experiment_circuit [1 / 10; 1 / 5])
                        ([0] ++ [1 / 2; 1]) 100 w
    = (Ok (ys1 ++ ys2), w12) /\
    next_job w12 = next_job w2 /\
    log w2 = log w ++ map Submit ids1 ++ map Await ids1
                   ++ map Submit ids2 ++ map Await ids2 /\
    log w12 = log w ++ map Submit ids1 ++ map Submit ids2
                    ++ map Await ids1 ++ map Await ids2.
Proof.
  apply (simulate_polynomial_app all_zero_backend
           (experiment_circuit [1 / 10; 1 / 5]) [0] [1 / 2; 1] 100 (mkWorld 0 [])).
  - lia.
  - apply all_zero_honours_shots.
  - repeat constructor; unfold experiment_circuit;
      (rewrite qsp_circuit_ok; [simpl; eauto | discriminate | lra]).
Defined.

(** The sweep of the notebook: for a non-empty phase sequence, any number
    of discretization points and [num_shots > 0], on a backend that answers
    every job in full, [simulate_polynomial(experiment_circuit, xs,
    num_shots)] over [xs = np.linspace(-1, 1, n)[1:-1]] raises nothing and
    returns [n - 2] values. *)
Theorem notebook_sweep_succeeds (backend : Backend Experiment)
    (phases : list R) (discretization_points num_shots : nat) (w : World) :
  phases <> [] -> (0 < num_shots)%nat -> honours_shots backend ->
  exists (ys : list R) (w' : World),
    simulate_polynomial backend (experiment_circuit phases)
                        (sweep_points discretization_points) num_shots w
    = (Ok ys, w') /\
    length ys = (discretization_points - 2)%nat.
Proof.
  intros Hne Hpos Hb.
  assert (Hxs : Forall (fun x => exists c, experiment_circuit phases x = Ok c)
                       (sweep_points discretization_points)).
  { eapply Forall_impl; [apply sweep_points_in_domain |].
    intros x Hx. cbn beta in Hx. unfold experiment_circuit.
    rewrite qsp_circuit_ok by (try assumption; lra). simpl. eauto. }
  destruct (circuits_exist _ _ Hxs) as [cs Hcs].
  do 2 eexists.
  split; [apply (simulate_polynomial_run _ _ _ _ _ _ Hb Hpos Hcs) |].
  rewrite length_map, <- (length_map job_id), jobs_from_ids.
  rewrite length_seq, <- (Forall2_length _ _ _ Hcs). apply length_sweep_points.
Qed.

Lemma notebook_sweep_succeeds_witness :
  exists (ys : list R) (w' : World),
    simulate_polynomial born_backend
                        (experiment_circuit [1 / 10; 1 / 5; 3 / 10; 2 / 5])
                        (sweep_points 30) 100 (mkWorld 0 [])
    = (Ok ys, w') /\
    length ys = (30 - 2)%nat.
Proof.
  apply (notebook_sweep_succeeds born_backend [1 / 10; 1 / 5; 3 / 10; 2 / 5]
           30 100 (mkWorld 0 [])).
  - discriminate.
  - lia.
  - apply born_honours_shots.
Defined.

(** ** The size and growth of the circuit *)

Lemma flat_map_counts (x : R) (others : list R) :
  let body := flat_map (fun phi => [rx (-2 * acos x); rz (-2 * phi)]) others in
  length body = (2 * length others)%nat /\
  length (List.filter is_rx body) = length others /\
  length (List.filter is_rz body) = length others.
Proof.
  induction others as [| phi others IH]; simpl.
  - auto.
  - destruct IH as (H1 & H2 & H3). cbv zeta in *.
    rewrite H1, H2, H3. repeat split; lia.
Qed.

(** For [d + 1] phases and [x] in [-1, 1] the circuit of [qsp_circuit] has
    [2 d + 1] gates: [d + 1] gates [rz] (one [SGate] per phase) and [d] gates
    [rx] (one [WGate] between consecutive phases). *)
Theorem qsp_circuit_size (phases : list R) (x : R) :
  phases <> [] -> -1 <= x <= 1 ->
  exists circ : QuantumCircuit,
    qsp_circuit x phases = Ok circ /\
    length circ = (2 * length phases - 1)%nat /\
    length (List.filter is_rz circ) = length phases /\
    length (List.filter is_rx circ) = (length phases - 1)%nat.
Proof.
  intros Hne Hx. exists (Spec.buildCircuit phases x).
  split; [now apply qsp_circuit_ok |].
  unfold Spec.buildCircuit. pose proof (length_rev phases) as Hl.
  destruct (rev phases) as [| last others].
  - destruct phases; [contradiction | discriminate].
  - destruct (flat_map_counts x others) as (H1 & H2 & H3). cbv zeta in *.
    simpl in Hl. cbn [Spec.gates_of List.filter is_rz is_rx length].
    rewrite H1, H2, H3, <- Hl. repeat split; lia.
Qed.

Lemma qsp_circuit_size_witness :
  exists circ : QuantumCircuit,
    qsp_circuit (1 / 2) [1 / 10; 1 / 5; 3 / 10; 2 / 5] = Ok circ /\
    length circ = (2 * length [1 / 10; 1 / 5; 3 / 10; 2 / 5] - 1)%nat /\
    length (List.filter is_rz circ) = length [1 / 10; 1 / 5; 3 / 10; 2 / 5] /\
    length (List.filter is_rx circ)
    = (length [1 / 10; 1 / 5; 3 / 10; 2 / 5] - 1)%nat.
Proof.
  apply (qsp_circuit_size [1 / 10; 1 / 5; 3 / 10; 2 / 5] (1 / 2));
    [discriminate | lra].
Defined.

(** Adding a phase [phi] at the end of the sequence multiplies the matrix
    of [qsp_polynomial] by [W(x) S(phi)] on the right, and puts the two new
    gates [rz(-2 phi)], [rx(-2 acos x)] at the front of the circuit of
    [qsp_circuit], where they act first. *)
Theorem append_phase (phases : list R) (phi x : R) :
  phases <> [] -> -1 <= x <= 1 ->
  exists (U : Matrix) (circ : QuantumCircuit),
    qsp_polynomial x phases = Ok (U, m00 U, m01 U) /\
    qsp_circuit x phases = Ok circ /\
    (let U' := Mmult (Mmult U (expected_w x)) (expected_s phi) in
     qsp_polynomial x (phases ++ [phi]) = Ok (U', m00 U', m01 U')) /\
    qsp_circuit x (phases ++ [phi])
    = Ok (rz (-2 * phi) :: rx (-2 * acos x) :: circ).
Proof.
  intros Hne Hx. destruct phases as [| phi0 rest]; [contradiction |].
  exists (fold_left (qsp_step x) rest (expected_s phi0)),
         (Spec.buildCircuit (phi0 :: rest) x).
  split; [apply qsp_polynomial_ok |].
  split; [now apply qsp_circuit_ok |].
  split.
  - cbv zeta. rewrite <- app_comm_cons, qsp_polynomial_ok, fold_left_app.
    reflexivity.
  - rewrite qsp_circuit_ok by (try assumption; now destruct rest).
    unfold Spec.buildCircuit. rewrite rev_app_distr.
    pose proof (length_rev (phi0 :: rest)) as Hl.
    remember (rev (phi0 :: rest)) as l eqn:E.
    destruct l as [| last others]; [discriminate |].
    reflexivity.
Qed.

Lemma append_phase_witness :
  exists (U : Matrix) (circ : QuantumCircuit),
    qsp_polynomial (1 / 2) [1 / 10; 1 / 5] = Ok (U, m00 U, m01 U) /\
    qsp_circuit (1 / 2) [1 / 10; 1 / 5] = Ok circ /\
    (let U' := Mmult (Mmult U (expected_w (1 / 2))) (expected_s (3 / 10)) in
     qsp_polynomial (1 / 2) ([1 / 10; 1 / 5] ++ [3 / 10])
     = Ok (U', m00 U', m01 U')) /\
    qsp_circuit (1 / 2) ([1 / 10; 1 / 5] ++ [3 / 10])
    = Ok (rz (-2 * (3 / 10)) :: rx (-2 * acos (1 / 2)) :: circ).
Proof.
  apply (append_phase [1 / 10; 1 / 5] (3 / 10) (1 / 2)); [discriminate | lra].
Defined.

(** ** Section 3: the amplitude between Hadamard gates *)

Lemma fold_hgates (circ : PlusBasis.HCircuit) (A : Matrix) :
  fold_left (fun U g => Mmult (PlusBasis.hgate_matrix g) U) circ A
  = Mmult (PlusBasis.HOperator circ) A.
Proof.
  unfold PlusBasis.HOperator. revert A.
  induction circ as [| g circ IH]; intros A; simpl.
  - now rewrite Mmult_I2_l.
  - rewrite IH, (IH (Mmult (PlusBasis.hgate_matrix g) I2)).
    now rewrite Mmult_I2_r, Mmult_assoc.
Qed.

Lemma HOperator_app (a b : PlusBasis.HCircuit) :
  PlusBasis.HOperator (a ++ b)
  = Mmult (PlusBasis.HOperator b) (PlusBasis.HOperator a).
Proof.
  unfold PlusBasis.HOperator at 1. rewrite fold_left_app, fold_hgates.
  reflexivity.
Qed.

Lemma HOperator_of_rotations (circ : QuantumCircuit) :
  PlusBasis.HOperator (PlusBasis.of_rotations circ) = Operator circ.
Proof.
  unfold PlusBasis.HOperator, PlusBasis.of_rotations, Operator.
  generalize I2. induction circ as [| g circ IH]; intros A; simpl.
  - reflexivity.
  - apply IH.
Qed.

Lemma HOperator_h :
  PlusBasis.HOperator [PlusBasis.h]
  = mkMatrix (RtoC (/ sqrt 2)) (RtoC (/ sqrt 2))
             (RtoC (/ sqrt 2)) (RtoC (- / sqrt 2)).
Proof. unfold PlusBasis.HOperator; simpl. apply Mmult_I2_r. Qed.

Lemma inv_sqrt2_sq : / sqrt 2 * / sqrt 2 = 1 / 2.
Proof.
  assert (H : sqrt 2 * sqrt 2 = 2) by (apply sqrt_sqrt; lra).
  assert (Hn : sqrt 2 <> 0) by (intros E; rewrite E in H; lra).
  rewrite <- Rinv_mult, H. lra.
Qed.

Lemma qsp_fold_symmetry (x phi0 : R) (rest : list R) :
  -1 <= x <= 1 ->
  let U := fold_left (qsp_step x) rest (expected_s phi0) in
  m11 U = Cconj (m00 U) /\ m10 U = (- Cconj (m01 U))%C.
Proof.
  intros Hx U. subst U.
  pose proof (qsp_has_form x phi0 rest) as H. unfold has_form in H.
  rewrite sp_sqrt_nonneg in H by nra.
  rewrite H. unfold qsp_form. cbn [m00 m01 m10 m11].
  split; [reflexivity |].
  rewrite !Cconj_mult, Cconj_Ci, Cconj_RtoC. ring.
Qed.

Lemma sandwich_m00 (U : Matrix) :
  m11 U = Cconj (m00 U) -> m10 U = (- Cconj (m01 U))%C ->
  let Hm := mkMatrix (RtoC (/ sqrt 2)) (RtoC (/ sqrt 2))
                     (RtoC (/ sqrt 2)) (RtoC (- / sqrt 2)) in
  m00 (Mmult Hm (Mmult U Hm)) = PlusBasis.sum_poly_value (m00 U) (m01 U).
Proof.
  destruct U as [[a b] [c d] u10 u11]. cbn [m00 m01 m10 m11].
  intros -> ->. cbv zeta.
  pose proof inv_sqrt2_sq as Hr. set (r := / sqrt 2) in *.
  unfold PlusBasis.sum_poly_value, PlusBasis.sp_re, PlusBasis.Cdiv, PlusBasis.Cinv, Mmult.
  Csimpl. f_equal.
  - replace (r * (a * r - b * 0 + (c * r - d * 0))
             - 0 * (a * 0 + b * r + (c * 0 + d * r))
             + (r * (- c * r - - - d * 0 + (a * r - - b * 0))
                - 0 * (- c * 0 + - - d * r + (a * 0 + - b * r))))
      with (2 * (r * r) * a) by ring.
    rewrite Hr. field.
  - replace (r * (a * 0 + b * r + (c * 0 + d * r))
             + 0 * (a * r - b * 0 + (c * r - d * 0))
             + (r * (- c * 0 + - - d * r + (a * 0 + - b * r))
                + 0 * (- c * r - - - d * 0 + (a * r - - b * 0))))
      with (2 * (r * r) * d) by ring.
    rewrite Hr. field.
Qed.

(** For a non-empty phase sequence and [x] strictly between -1 and 1 (as
    every sweep point is), [sum_poly] read at [x] is the top-left entry of
    the unitary of the section-3 experiment circuit (the QSP circuit between
    two Hadamard gates), and [sum_poly_abs] is the probability that this
    circuit reads 0. *)
Theorem plus_basis_amplitude (phases : list R) (x : R) :
  phases <> [] -> -1 < x < 1 ->
  exists e : PlusBasis.HExperiment,
    PlusBasis.experiment_circuit phases x = Ok e /\
    PlusBasis.hmeasured e = true /\
    PlusBasis.sum_poly phases x
    = Ok (Some (m00 (PlusBasis.HOperator (PlusBasis.hgates e)))) /\
    PlusBasis.sum_poly_abs phases x
    = Ok (Some (Cnorm2 (m00 (PlusBasis.HOperator (PlusBasis.hgates e))))).
Proof.
  intros Hne Hx0. assert (Hx : -1 <= x <= 1) by lra.
  destruct phases as [| phi0 rest]; [contradiction |].
  set (U := fold_left (qsp_step x) rest (expected_s phi0)).
  assert (He : PlusBasis.HOperator
                 (PlusBasis.compose
                    (PlusBasis.compose [PlusBasis.h]
                       (PlusBasis.of_rotations (Spec.buildCircuit (phi0 :: rest) x)))
                    [PlusBasis.h])
               = Mmult (PlusBasis.HOperator [PlusBasis.h])
                       (Mmult U (PlusBasis.HOperator [PlusBasis.h]))).
  { unfold PlusBasis.compose. rewrite !HOperator_app, HOperator_of_rotations.
    unfold Spec.buildCircuit. now rewrite (Operator_gates_of x phi0 rest Hx). }
  destruct (qsp_fold_symmetry x phi0 rest Hx) as [H11 H10]. fold U in H11, H10.
  assert (Hs : PlusBasis.sum_poly (phi0 :: rest) x
               = Ok (Some (PlusBasis.sum_poly_value (m00 U) (m01 U)))).
  { unfold PlusBasis.sum_poly. rewrite qsp_polynomial_ok. cbv zeta.
    cbn [rbind]. fold U. destruct rest as [| phi1 rest']; [reflexivity |].
    destruct (Req_dec_T (1 - x ^ 2) 0) as [E | _]; [exfalso; nra | reflexivity]. }
  eexists.
  split.
  { unfold PlusBasis.experiment_circuit.
    rewrite qsp_circuit_ok by (try assumption; lra). reflexivity. }
  unfold PlusBasis.transpile, PlusBasis.measure_all.
  cbn [PlusBasis.hgates PlusBasis.hmeasured].
  split; [reflexivity |].
  unfold PlusBasis.sum_poly_abs.
  rewrite Hs, He, HOperator_h, (sandwich_m00 U H11 H10).
  split; reflexivity.
Qed.

Lemma plus_basis_amplitude_witness :
  exists e : PlusBasis.HExperiment,
    PlusBasis.experiment_circuit [1 / 10; 1 / 5; 3 / 10; 2 / 5] (1 / 2) = Ok e /\
    PlusBasis.hmeasured e = true /\
    PlusBasis.sum_poly [1 / 10; 1 / 5; 3 / 10; 2 / 5] (1 / 2)
    = Ok (Some (m00 (PlusBasis.HOperator (PlusBasis.hgates e)))) /\
    PlusBasis.sum_poly_abs [1 / 10; 1 / 5; 3 / 10; 2 / 5] (1 / 2)
    = Ok (Some (Cnorm2 (m00 (PlusBasis.HOperator (PlusBasis.hgates e))))).
Proof.
  apply (plus_basis_amplitude [1 / 10; 1 / 5; 3 / 10; 2 / 5] (1 / 2));
    [discriminate | lra].
Defined.
